(** * The relationship graph of [packages/graph/src/-private/graph.ts]

    A shallow embedding of the [Graph] class and of the dematerialization
    helpers that live next to it, followed by the properties of the
    specification that concern them.

    Conventions of the embedding.

    - JavaScript objects that are mutated in place and shared by reference
      (the edges) live in a heap, [heap : list GraphEdge], addressed by their
      allocation index; the node registry, the transaction set and the
      local-sync set all hold addresses, so a write through one alias is seen
      through the others.
    - [Map<StableRecordIdentifier, ...>] is a [gmap]; a node, whose keys are
      enumerated by [Object.keys], is an association list in insertion order
      whose values may be [None], the JavaScript [undefined].
    - A thrown exception (a failed [assert], or a [TypeError] on [null]) is
      [Err]; assertions are active, as in a DEBUG build.  [LOG_GRAPH] is off.
    - Calls that leave the graph for a collaborator which only observes
      (change notification, the scheduler, the schema resolution) are recorded
      in the [events] trace of the graph, oldest first.
    - Property names that collide with members of [Object.prototype] are
      outside the model: [_metaCache] entries are plain [gmap] lookups. *)

From Stdlib Require Import Bool Arith Lia.
From stdpp Require Import base option list strings gmap.

Open Scope string_scope.

(** ** Results of fallible calls *)

Inductive Res (A : Type) : Type :=
| Ok (a : A)
| Err (msg : string).
Arguments Ok {A} a.
Arguments Err {A} msg.

#[global] Instance Res_bind : MBind Res := fun A B k r =>
  match r with
  | Ok a => k a
  | Err m => Err m
  end.

(** [for (...) { body }] over a list, left to right, stopping at the first
    exception. *)
Fixpoint forEach {A S} (body : S -> A -> Res S) (xs : list A) (s : S) : Res S :=
  match xs with
  | [] => Ok s
  | x :: xs' => s' ← body s x; forEach body xs' s'
  end.

(** ** Identities and edge definitions *)

(** [StableRecordIdentifier]: compared by reference in the source; [lid]
    stands for the reference. *)
Record StableRecordIdentifier : Type := mkIdentifier {
  type : string;
  lid : string
}.

#[global] Instance StableRecordIdentifier_eq_dec : EqDecision StableRecordIdentifier.
Proof. solve_decision. Defined.

#[global] Instance StableRecordIdentifier_countable : Countable StableRecordIdentifier.
Proof.
  refine (inj_countable' (fun i => (type i, lid i))
                         (fun p => mkIdentifier p.1 p.2) _).
  by intros [].
Defined.

Inductive Kind : Type := KBelongsTo | KHasMany | KImplicit.

#[global] Instance Kind_eq_dec : EqDecision Kind.
Proof. solve_decision. Defined.

(** The fields of [UpgradedMeta] that graph.ts reads. *)
Record UpgradedMeta : Type := mkMeta {
  kind : Kind;
  key : string;
  inverseKey : string;
  isAsync : bool;
  isImplicit : bool;
  inverseIsAsync : bool;
  inverseIsImplicit : bool
}.

#[global] Instance UpgradedMeta_eq_dec : EqDecision UpgradedMeta.
Proof. solve_decision. Defined.

(** What [upgradeDefinition] resolves: both sides of a relationship; the
    right-hand side may be [null]. *)
Record EdgeDefinition : Type := mkInfo {
  lhs_definition : UpgradedMeta;
  rhs_definition : option UpgradedMeta;
  lhs_baseModelName : string;
  rhs_baseModelName : string
}.

(** ** Edges *)

Record RelationshipState : Type := mkState {
  hasReceivedData : bool;
  isEmpty : bool;
  isStale : bool;
  hasDematerializedInverse : bool
}.

Module ResourceEdge.
Record t : Type := mk {
  definition : UpgradedMeta;
  identifier : StableRecordIdentifier;
  transactionRef : nat;
  localState : option StableRecordIdentifier;
  remoteState : option StableRecordIdentifier;
  state : RelationshipState
}.
End ResourceEdge.

Module CollectionEdge.
Record t : Type := mk {
  definition : UpgradedMeta;
  identifier : StableRecordIdentifier;
  transactionRef : nat;
  localMembers : list StableRecordIdentifier;
  remoteMembers : list StableRecordIdentifier;
  localState : list StableRecordIdentifier;
  remoteState : list StableRecordIdentifier;
  state : RelationshipState
}.
End CollectionEdge.

Module ImplicitEdge.
Record t : Type := mk {
  definition : UpgradedMeta;
  identifier : StableRecordIdentifier;
  localMembers : list StableRecordIdentifier;
  remoteMembers : list StableRecordIdentifier
}.
End ImplicitEdge.

Inductive GraphEdge : Type :=
| Resource (r : ResourceEdge.t)
| Collection (c : CollectionEdge.t)
| Implicit (i : ImplicitEdge.t).

Definition edgeDefinition (e : GraphEdge) : UpgradedMeta :=
  match e with
  | Resource r => ResourceEdge.definition r
  | Collection c => CollectionEdge.definition c
  | Implicit i => ImplicitEdge.definition i
  end.

Definition edgeIdentifier (e : GraphEdge) : StableRecordIdentifier :=
  match e with
  | Resource r => ResourceEdge.identifier r
  | Collection c => CollectionEdge.identifier c
  | Implicit i => ImplicitEdge.identifier i
  end.

(** Modelled from the spec: the type guards [isImplicit], [isBelongsTo] and
    [isHasMany] of [-utils] are missing; an edge is a "tagged variant", and
    the guards read the tag. *)
Definition isImplicitEdge (e : GraphEdge) : bool :=
  match e with Implicit _ => true | _ => false end.
Definition isBelongsTo (e : GraphEdge) : bool :=
  match e with Resource _ => true | _ => false end.
Definition isHasMany (e : GraphEdge) : bool :=
  match e with Collection _ => true | _ => false end.

(** ** Operations *)

Inductive OpName : Type :=
| op_mergeIdentifiers
| op_updateRelationship
| op_deleteRecord
| op_replaceRelatedRecord
| op_addToRelatedRecords
| op_removeFromRelatedRecords
| op_replaceRelatedRecords
| op_unknown.

#[global] Instance OpName_eq_dec : EqDecision OpName.
Proof. solve_decision. Defined.

Record Operation : Type := mkOp {
  op : OpName;
  record : StableRecordIdentifier;
  field : string;
  value : list StableRecordIdentifier
}.

#[global] Instance Operation_eq_dec : EqDecision Operation.
Proof. solve_decision. Defined.

(** ** The graph *)

Inductive Event : Type :=
| Notified (identifier : StableRecordIdentifier) (key : string)
| Scheduled (queue : string)
| Resolved (type : string) (propertyName : string).

#[global] Instance Event_eq_dec : EqDecision Event.
Proof. solve_decision. Defined.

Record PushedUpdates : Type := mkPushed {
  belongsTo : list Operation;
  hasMany : list Operation;
  deletions : list Operation
}.

Abbreviation Address := nat (only parsing).
Abbreviation Node := (list (string * option nat)) (only parsing).

Record Graph : Type := mkGraph {
  _definitionCache : gmap string (gmap string (option EdgeDefinition));
  _metaCache : gmap string (gmap string (option UpgradedMeta));
  _potentialPolymorphicTypes : gmap string (gmap string bool);
  identifiers : gmap StableRecordIdentifier Node;
  heap : list GraphEdge;
  isDestroyed : bool;
  _willSyncRemote : bool;
  _willSyncLocal : bool;
  _pushedUpdates : PushedUpdates;
  _updatedRelationships : list Address;
  _transaction : option (list Address);
  _removing : option StableRecordIdentifier;
  events : list Event
}.

Definition set_definitionCache (g : Graph) v : Graph :=
  mkGraph v (_metaCache g) (_potentialPolymorphicTypes g) (identifiers g)
    (heap g) (isDestroyed g) (_willSyncRemote g) (_willSyncLocal g)
    (_pushedUpdates g) (_updatedRelationships g) (_transaction g)
    (_removing g) (events g).
Definition set_metaCache (g : Graph) v : Graph :=
  mkGraph (_definitionCache g) v (_potentialPolymorphicTypes g) (identifiers g)
    (heap g) (isDestroyed g) (_willSyncRemote g) (_willSyncLocal g)
    (_pushedUpdates g) (_updatedRelationships g) (_transaction g)
    (_removing g) (events g).
Definition set_potentialPolymorphicTypes (g : Graph) v : Graph :=
  mkGraph (_definitionCache g) (_metaCache g) v (identifiers g)
    (heap g) (isDestroyed g) (_willSyncRemote g) (_willSyncLocal g)
    (_pushedUpdates g) (_updatedRelationships g) (_transaction g)
    (_removing g) (events g).
Definition set_identifiers (g : Graph) v : Graph :=
  mkGraph (_definitionCache g) (_metaCache g) (_potentialPolymorphicTypes g) v
    (heap g) (isDestroyed g) (_willSyncRemote g) (_willSyncLocal g)
    (_pushedUpdates g) (_updatedRelationships g) (_transaction g)
    (_removing g) (events g).
Definition set_heap (g : Graph) v : Graph :=
  mkGraph (_definitionCache g) (_metaCache g) (_potentialPolymorphicTypes g)
    (identifiers g) v (isDestroyed g) (_willSyncRemote g) (_willSyncLocal g)
    (_pushedUpdates g) (_updatedRelationships g) (_transaction g)
    (_removing g) (events g).
Definition set_isDestroyed (g : Graph) v : Graph :=
  mkGraph (_definitionCache g) (_metaCache g) (_potentialPolymorphicTypes g)
    (identifiers g) (heap g) v (_willSyncRemote g) (_willSyncLocal g)
    (_pushedUpdates g) (_updatedRelationships g) (_transaction g)
    (_removing g) (events g).
Definition set_willSyncRemote (g : Graph) v : Graph :=
  mkGraph (_definitionCache g) (_metaCache g) (_potentialPolymorphicTypes g)
    (identifiers g) (heap g) (isDestroyed g) v (_willSyncLocal g)
    (_pushedUpdates g) (_updatedRelationships g) (_transaction g)
    (_removing g) (events g).
Definition set_willSyncLocal (g : Graph) v : Graph :=
  mkGraph (_definitionCache g) (_metaCache g) (_potentialPolymorphicTypes g)
    (identifiers g) (heap g) (isDestroyed g) (_willSyncRemote g) v
    (_pushedUpdates g) (_updatedRelationships g) (_transaction g)
    (_removing g) (events g).
Definition set_pushedUpdates (g : Graph) v : Graph :=
  mkGraph (_definitionCache g) (_metaCache g) (_potentialPolymorphicTypes g)
    (identifiers g) (heap g) (isDestroyed g) (_willSyncRemote g)
    (_willSyncLocal g) v (_updatedRelationships g) (_transaction g)
    (_removing g) (events g).
Definition set_updatedRelationships (g : Graph) v : Graph :=
  mkGraph (_definitionCache g) (_metaCache g) (_potentialPolymorphicTypes g)
    (identifiers g) (heap g) (isDestroyed g) (_willSyncRemote g)
    (_willSyncLocal g) (_pushedUpdates g) v (_transaction g)
    (_removing g) (events g).
Definition set_transaction (g : Graph) v : Graph :=
  mkGraph (_definitionCache g) (_metaCache g) (_potentialPolymorphicTypes g)
    (identifiers g) (heap g) (isDestroyed g) (_willSyncRemote g)
    (_willSyncLocal g) (_pushedUpdates g) (_updatedRelationships g) v
    (_removing g) (events g).
Definition set_removing (g : Graph) v : Graph :=
  mkGraph (_definitionCache g) (_metaCache g) (_potentialPolymorphicTypes g)
    (identifiers g) (heap g) (isDestroyed g) (_willSyncRemote g)
    (_willSyncLocal g) (_pushedUpdates g) (_updatedRelationships g)
    (_transaction g) v (events g).
Definition set_events (g : Graph) v : Graph :=
  mkGraph (_definitionCache g) (_metaCache g) (_potentialPolymorphicTypes g)
    (identifiers g) (heap g) (isDestroyed g) (_willSyncRemote g)
    (_willSyncLocal g) (_pushedUpdates g) (_updatedRelationships g)
    (_transaction g) (_removing g) v.

(** [new Graph(store)] *)
Definition newGraph : Graph :=
  mkGraph ∅ ∅ ∅ ∅ [] false false false (mkPushed [] [] []) [] None None [].

(** ** Collaborators that are not part of graph.ts

    [isNew] asks the cache whether an identity exists on the client only;
    [upgradeDefinition] and [isLHS] come from [-edge-definition]
    ([upgradeDefinition] reads the graph and writes only its own
    [_definitionCache]); the remaining members are the operation processor's
    operations, which [update] and the local flush dispatch to. *)
Class Collaborators : Type := {
  isNew : StableRecordIdentifier -> bool;
  upgradeDefinition :
    Graph -> StableRecordIdentifier -> string ->
    option EdgeDefinition * gmap string (gmap string (option EdgeDefinition));
  isLHS : EdgeDefinition -> string -> string -> bool;
  mergeIdentifier : Graph -> Operation -> Node -> Res Graph;
  updateRelationshipOperation : Graph -> Operation -> Res Graph;
  assertValidRelationshipPayload : Graph -> Operation -> bool;
  replaceRelatedRecord : Graph -> Operation -> bool -> Res Graph;
  addToRelatedRecords : Graph -> Operation -> bool -> Res Graph;
  removeFromRelatedRecords : Graph -> Operation -> bool -> Res Graph;
  replaceRelatedRecords : Graph -> Operation -> bool -> Res Graph;
  syncRemoteToLocal : Graph -> Address -> Res Graph
}.

(** ** Nodes: [Record<string, GraphEdge>] *)

(** [relationships[k]]; a missing key and a key set to [undefined] read the
    same. *)
Fixpoint nodeGet (relationships : Node) (k : string) : option Address :=
  match relationships with
  | [] => None
  | (k', v) :: rest => if decide (k' = k) then v else nodeGet rest k
  end.

(** [relationships[k] = v] *)
Fixpoint nodeSet (relationships : Node) (k : string) (v : option Address) : Node :=
  match relationships with
  | [] => [(k, v)]
  | (k', v') :: rest =>
      if decide (k' = k) then (k, v) :: rest else (k', v') :: nodeSet rest k v
  end.

(** [Object.keys(relationships)] *)
Definition keys (relationships : Node) : list string := relationships.*1.

(** A write to the node object of [identifier]; it is not seen through the
    registry when the node is no longer registered. *)
Definition setEdgeOf (g : Graph) (identifier : StableRecordIdentifier)
    (k : string) (v : option Address) : Graph :=
  set_identifiers g (alter (fun n => nodeSet n k v) identifier (identifiers g)).

(** ** Edge-level helpers *)

Definition set_isStale (s : RelationshipState) (v : bool) : RelationshipState :=
  mkState (hasReceivedData s) (isEmpty s) v (hasDematerializedInverse s).
Definition set_hasDematerializedInverse (s : RelationshipState) (v : bool) : RelationshipState :=
  mkState (hasReceivedData s) (isEmpty s) (isStale s) v.
Definition set_received_empty (s : RelationshipState) (r e : bool) : RelationshipState :=
  mkState r e (isStale s) (hasDematerializedInverse s).

Definition edgeState (e : GraphEdge) : option RelationshipState :=
  match e with
  | Resource r => Some (ResourceEdge.state r)
  | Collection c => Some (CollectionEdge.state c)
  | Implicit _ => None
  end.

Definition mapState (f : RelationshipState -> RelationshipState) (e : GraphEdge) : GraphEdge :=
  match e with
  | Resource r =>
      Resource (ResourceEdge.mk (ResourceEdge.definition r) (ResourceEdge.identifier r)
        (ResourceEdge.transactionRef r) (ResourceEdge.localState r)
        (ResourceEdge.remoteState r) (f (ResourceEdge.state r)))
  | Collection c =>
      Collection (CollectionEdge.mk (CollectionEdge.definition c) (CollectionEdge.identifier c)
        (CollectionEdge.transactionRef c) (CollectionEdge.localMembers c)
        (CollectionEdge.remoteMembers c) (CollectionEdge.localState c)
        (CollectionEdge.remoteState c) (f (CollectionEdge.state c)))
  | Implicit i => Implicit i
  end.

Definition edgeTransactionRef (e : GraphEdge) : nat :=
  match e with
  | Resource r => ResourceEdge.transactionRef r
  | Collection c => CollectionEdge.transactionRef c
  | Implicit _ => 0
  end.

Definition mapTransactionRef (f : nat -> nat) (e : GraphEdge) : GraphEdge :=
  match e with
  | Resource r =>
      Resource (ResourceEdge.mk (ResourceEdge.definition r) (ResourceEdge.identifier r)
        (f (ResourceEdge.transactionRef r)) (ResourceEdge.localState r)
        (ResourceEdge.remoteState r) (ResourceEdge.state r))
  | Collection c =>
      Collection (CollectionEdge.mk (CollectionEdge.definition c) (CollectionEdge.identifier c)
        (f (CollectionEdge.transactionRef c)) (CollectionEdge.localMembers c)
        (CollectionEdge.remoteMembers c) (CollectionEdge.localState c)
        (CollectionEdge.remoteState c) (CollectionEdge.state c))
  | Implicit i => Implicit i
  end.

Definition setResourceStates (r : ResourceEdge.t)
    (l rm : option StableRecordIdentifier) : ResourceEdge.t :=
  ResourceEdge.mk (ResourceEdge.definition r) (ResourceEdge.identifier r)
    (ResourceEdge.transactionRef r) l rm (ResourceEdge.state r).

Definition setResourceState (r : ResourceEdge.t) (s : RelationshipState) : ResourceEdge.t :=
  ResourceEdge.mk (ResourceEdge.definition r) (ResourceEdge.identifier r)
    (ResourceEdge.transactionRef r) (ResourceEdge.localState r)
    (ResourceEdge.remoteState r) s.

(** Modelled from the spec: the edge constructors of [edges/resource],
    [edges/collection] and [edges/implicit] are missing; a fresh edge holds
    no reference, has [transactionRef] zero and the flags of an empty edge
    that has received no data ("creation has no side effect beyond
    allocation"). *)
Definition createResourceEdge (meta : UpgradedMeta) (identifier : StableRecordIdentifier)
    : ResourceEdge.t :=
  ResourceEdge.mk meta identifier 0 None None (mkState false true false false).
Definition createCollectionEdge (meta : UpgradedMeta) (identifier : StableRecordIdentifier)
    : CollectionEdge.t :=
  CollectionEdge.mk meta identifier 0 [] [] [] [] (mkState false true false false).
Definition createImplicitEdge (meta : UpgradedMeta) (identifier : StableRecordIdentifier)
    : ImplicitEdge.t :=
  ImplicitEdge.mk meta identifier [] [].

(** The first occurrences of [l], skipping what was [seen]. *)
Fixpoint unseen (seen l : list StableRecordIdentifier) : list StableRecordIdentifier :=
  match l with
  | [] => []
  | x :: l' => if decide (x ∈ seen) then unseen seen l' else x :: unseen (x :: seen) l'
  end.

(** Modelled from the spec: [forAllRelatedIdentifiers] of [-utils] is missing;
    it visits "every related identity on the edge", each one once: the
    identities of both state layers of a to-one or to-many edge, the members
    of an implicit edge. *)
Definition relatedIdentifiers (rel : GraphEdge) : list StableRecordIdentifier :=
  match rel with
  | Resource r =>
      unseen [] (option_list (ResourceEdge.remoteState r)
                 ++ option_list (ResourceEdge.localState r))
  | Collection c =>
      unseen [] (CollectionEdge.localState c ++ CollectionEdge.remoteState c)
  | Implicit i =>
      unseen [] (ImplicitEdge.localMembers i ++ ImplicitEdge.remoteMembers i)
  end.

Definition forAllRelatedIdentifiers {S} (rel : GraphEdge)
    (cb : S -> StableRecordIdentifier -> Res S) (s : S) : Res S :=
  forEach cb (relatedIdentifiers rel) s.

Definition without (x : StableRecordIdentifier) (l : list StableRecordIdentifier)
    : list StableRecordIdentifier :=
  filter (fun y => y ≠ x) l.

(** Modelled from the spec: [removeIdentifierCompletelyFromRelationship] of
    [-utils] is missing; it is the "complete-removal primitive" that "fully
    severs the member": the identity leaves both state layers and both
    membership sets of the edge. *)
Definition removeIdentifierCompletely (rel : GraphEdge) (value : StableRecordIdentifier)
    : GraphEdge :=
  match rel with
  | Resource r =>
      Resource (setResourceStates r
        (if decide (ResourceEdge.localState r = Some value) then None
         else ResourceEdge.localState r)
        (if decide (ResourceEdge.remoteState r = Some value) then None
         else ResourceEdge.remoteState r))
  | Collection c =>
      Collection (CollectionEdge.mk (CollectionEdge.definition c) (CollectionEdge.identifier c)
        (CollectionEdge.transactionRef c)
        (without value (CollectionEdge.localMembers c))
        (without value (CollectionEdge.remoteMembers c))
        (without value (CollectionEdge.localState c))
        (without value (CollectionEdge.remoteState c))
        (CollectionEdge.state c))
  | Implicit i =>
      Implicit (ImplicitEdge.mk (ImplicitEdge.definition i) (ImplicitEdge.identifier i)
        (without value (ImplicitEdge.localMembers i))
        (without value (ImplicitEdge.remoteMembers i)))
  end.

Definition removeIdentifierCompletelyFromRelationship (g : Graph) (relationship : Address)
    (value : StableRecordIdentifier) : Graph :=
  set_heap g (alter (fun e => removeIdentifierCompletely e value) relationship (heap g)).

(** Modelled from the spec: [notifyChange] of [-utils] is missing; it "emits
    a change notification" for an (identity, field) pair to the domain-object
    layer, which is out of scope.  The call is recorded in the trace. *)
Definition notifyChange (g : Graph) (identifier : StableRecordIdentifier) (k : string) : Graph :=
  set_events g (events g ++ [Notified identifier k]).

(** Modelled from the spec: [getStore] of [-utils] and the scheduler are
    missing; [getStore(this.store)._schedule(queue, callback)] "schedules a
    deferred flush on a named cooperative queue".  The request is recorded in
    the trace; [destroy] nulls the store, after which the call throws. *)
Definition _schedule (g : Graph) (queue : string) : Res Graph :=
  if isDestroyed g then Err "TypeError: store is null"
  else Ok (set_events g (events g ++ [Scheduled queue])).

(** [clearRelationship] *)
Definition clearRelationship (relationship : GraphEdge) : GraphEdge :=
  match relationship with
  | Resource r =>
      Resource (ResourceEdge.mk (ResourceEdge.definition r) (ResourceEdge.identifier r)
        (ResourceEdge.transactionRef r) None None
        (set_received_empty (ResourceEdge.state r) false true))
  | Collection c =>
      Collection (CollectionEdge.mk (CollectionEdge.definition c) (CollectionEdge.identifier c)
        (CollectionEdge.transactionRef c) [] [] [] [] (CollectionEdge.state c))
  | Implicit i => Implicit i
  end.

Definition modifyEdge (g : Graph) (a : Address) (f : GraphEdge -> GraphEdge) : Graph :=
  set_heap g (alter f a (heap g)).

(** ** The methods of [Graph] *)

Section Graph.
Context {env : Collaborators}.

Definition has (g : Graph) (identifier : StableRecordIdentifier) (propertyName : string) : bool :=
  match identifiers g !! identifier with
  | None => false
  | Some relationships => bool_decide (nodeGet relationships propertyName ≠ None)
  end.

(** [defs?.[propertyName]], where a cached [null] is as falsy as a miss. *)
Definition cachedMeta (g : Graph) (ty propertyName : string) : option UpgradedMeta :=
  defs ← _metaCache g !! ty; mjoin (defs !! propertyName).

Definition getDefinition (g : Graph) (identifier : StableRecordIdentifier)
    (propertyName : string) : Res (option UpgradedMeta * Graph) :=
  let defs := _metaCache g !! type identifier in
  match cachedMeta g (type identifier) propertyName with
  | Some meta => Ok (Some meta, g)
  | None =>
      let '(info, cache) := upgradeDefinition g identifier propertyName in
      let g := set_events (set_definitionCache g cache)
                 (events g ++ [Resolved (type identifier) propertyName]) in
      match info with
      | None => Err "Could not determine relationship information"
      | Some info =>
          let meta :=
            if isLHS info (type identifier) propertyName
            then Some (lhs_definition info) else rhs_definition info in
          let defs := default ∅ defs in
          Ok (meta, set_metaCache g
                      (<[type identifier := <[propertyName := meta]> defs]> (_metaCache g)))
      end
  end.

Definition alloc (g : Graph) (e : GraphEdge) : Address * Graph :=
  (length (heap g), set_heap g (heap g ++ [e])).

Definition get (g : Graph) (identifier : StableRecordIdentifier) (propertyName : string)
    : Res (Address * Graph) :=
  if decide (propertyName = "") then Err "expected propertyName" else
  let '(relationships, g) :=
    match identifiers g !! identifier with
    | Some relationships => (relationships, g)
    | None => ([], set_identifiers g (<[identifier := []]> (identifiers g)))
    end in
  match nodeGet relationships propertyName with
  | Some relationship => Ok (relationship, g)
  | None =>
      '(meta, g) ← getDefinition g identifier propertyName;
      match meta with
      | None => Err "TypeError: cannot read properties of null (reading 'kind')"
      | Some meta =>
          edge ← match kind meta with
                 | KBelongsTo => Ok (Resource (createResourceEdge meta identifier))
                 | KHasMany => Ok (Collection (createCollectionEdge meta identifier))
                 | KImplicit =>
                     if isImplicit meta
                     then Ok (Implicit (createImplicitEdge meta identifier))
                     else Err "Expected kind to be implicit"
                 end;
          let '(relationship, g) := alloc g edge in
          Ok (relationship, setEdgeOf g identifier propertyName (Some relationship))
      end
  end.

Definition registerPolymorphicType (g : Graph) (type1 type2 : string) : Graph :=
  let typeCache := _potentialPolymorphicTypes g in
  let t1 := default ∅ (typeCache !! type1) in
  let typeCache := <[type1 := <[type2 := true]> t1]> typeCache in
  let t2 := default ∅ (typeCache !! type2) in
  set_potentialPolymorphicTypes g (<[type2 := <[type1 := true]> t2]> typeCache).

(** The loop of [isReleasable] over [Object.keys(relationships)]. *)
Fixpoint isReleasable_keys (g : Graph) (identifier : StableRecordIdentifier)
    (relationships : Node) (ks : list string) : bool :=
  match ks with
  | [] => true
  | k :: ks' =>
      match nodeGet relationships k ≫= (fun a => heap g !! a) with
      | None => isReleasable_keys g identifier relationships ks'
      | Some relationship =>
          if inverseIsAsync (edgeDefinition relationship) && negb (isNew identifier)
          then false
          else isReleasable_keys g identifier relationships ks'
      end
  end.

Definition isReleasable (g : Graph) (identifier : StableRecordIdentifier) : bool :=
  match identifiers g !! identifier with
  | None => true
  | Some relationships => isReleasable_keys g identifier relationships (keys relationships)
  end.

(** [removeDematerializedInverse] *)
Definition removeDematerializedInverse (g : Graph) (relationship : Address)
    (inverseIdentifier : StableRecordIdentifier) (silenceNotifications : bool) : Graph :=
  match heap g !! relationship with
  | Some (Resource r) =>
      let localInverse := ResourceEdge.localState r in
      let r' :=
        if negb (isAsync (ResourceEdge.definition r))
           || match localInverse with Some l => isNew l | None => false end
        then
          let r1 :=
            if bool_decide (ResourceEdge.localState r = localInverse)
               && bool_decide (localInverse ≠ None)
            then setResourceStates r None (ResourceEdge.remoteState r) else r in
          if bool_decide (ResourceEdge.remoteState r1 = localInverse)
             && bool_decide (localInverse ≠ None)
          then
            let r2 := setResourceState
                        (setResourceStates r1 (ResourceEdge.localState r1) None)
                        (set_received_empty (ResourceEdge.state r1) true true) in
            match ResourceEdge.localState r2 with
            | Some l => if negb (isNew l)
                        then setResourceStates r2 None (ResourceEdge.remoteState r2)
                        else r2
            | None => r2
            end
          else r1
        else setResourceState r (set_hasDematerializedInverse (ResourceEdge.state r) true) in
      let g := set_heap g (<[relationship := Resource r']> (heap g)) in
      if negb silenceNotifications
      then notifyChange g (ResourceEdge.identifier r') (key (ResourceEdge.definition r'))
      else g
  | Some rel =>
      let g :=
        if negb (isAsync (edgeDefinition rel)) || isNew inverseIdentifier
        then removeIdentifierCompletelyFromRelationship g relationship inverseIdentifier
        else modifyEdge g relationship (mapState (fun s => set_hasDematerializedInverse s true)) in
      if negb silenceNotifications
      then notifyChange g (edgeIdentifier rel) (key (edgeDefinition rel))
      else g
  | None => g
  end.

(** [notifyInverseOfDematerialization] *)
Definition notifyInverseOfDematerialization (g : Graph)
    (inverseIdentifier : StableRecordIdentifier) (inverseKey : string)
    (identifier : StableRecordIdentifier) (silenceNotifications : bool) : Res Graph :=
  if negb (has g inverseIdentifier inverseKey) then Ok g else
  '(relationship, g) ← get g inverseIdentifier inverseKey;
  match heap g !! relationship with
  | None => Err "dangling edge"
  | Some (Implicit _) => Err "expected no implicit"
  | Some (Resource r) =>
      if bool_decide (ResourceEdge.localState r = None)
         || bool_decide (ResourceEdge.localState r = Some identifier)
      then Ok (removeDematerializedInverse g relationship identifier silenceNotifications)
      else Ok g
  | Some (Collection _) =>
      Ok (removeDematerializedInverse g relationship identifier silenceNotifications)
  end.

(** [removeCompletelyFromInverse] *)
Definition removeCompletelyFromInverse (g : Graph) (relationship : Address) : Res Graph :=
  match heap g !! relationship with
  | None => Err "dangling edge"
  | Some rel =>
      let identifier := edgeIdentifier rel in
      let inverseKey := inverseKey (edgeDefinition rel) in
      g ← forAllRelatedIdentifiers rel
             (fun g inverseIdentifier =>
                if has g inverseIdentifier inverseKey
                then '(inverse, g) ← get g inverseIdentifier inverseKey;
                     Ok (removeIdentifierCompletelyFromRelationship g inverse identifier)
                else Ok g) g;
      match rel with
      | Resource _ =>
          let g := if negb (isAsync (edgeDefinition rel))
                   then modifyEdge g relationship clearRelationship else g in
          Ok (modifyEdge g relationship
                (fun e => match e with
                          | Resource r => Resource (setResourceStates r None (ResourceEdge.remoteState r))
                          | _ => e
                          end))
      | Collection _ =>
          if negb (isAsync (edgeDefinition rel))
          then Ok (notifyChange (modifyEdge g relationship clearRelationship)
                     identifier (key (edgeDefinition rel)))
          else Ok g
      | Implicit _ =>
          Ok (modifyEdge g relationship
                (fun e => match e with
                          | Implicit i =>
                              Implicit (ImplicitEdge.mk (ImplicitEdge.definition i)
                                          (ImplicitEdge.identifier i) [] [])
                          | _ => e
                          end))
      end
  end.

(** [destroyRelationship] *)
Definition destroyRelationship (g : Graph) (rel : Address) (silenceNotifications : bool)
    : Res Graph :=
  match heap g !! rel with
  | None => Err "dangling edge"
  | Some (Implicit i) =>
      if isReleasable g (ImplicitEdge.identifier i)
      then removeCompletelyFromInverse g rel
      else Ok g
  | Some edge =>
      let identifier := edgeIdentifier edge in
      let definition := edgeDefinition edge in
      g ← (if negb (inverseIsImplicit definition)
           then forAllRelatedIdentifiers edge
                  (fun g inverseIdentifier =>
                     notifyInverseOfDematerialization g inverseIdentifier
                       (inverseKey definition) identifier silenceNotifications) g
           else Ok g);
      if negb (inverseIsImplicit definition) && negb (inverseIsAsync definition)
      then
        let g := modifyEdge g rel (mapState (fun s => set_isStale s true)) in
        let g := modifyEdge g rel clearRelationship in
        if negb (isAsync definition) && negb silenceNotifications
        then Ok (notifyChange g identifier (key definition))
        else Ok g
      else Ok g
  end.

(** [unload]: the callback of [Object.keys(relationships).forEach]. *)
Definition unload_key (identifier : StableRecordIdentifier) (silenceNotifications : bool)
    (g : Graph) (k : string) : Res Graph :=
  match identifiers g !! identifier ≫= (fun relationships => nodeGet relationships k) with
  | None => Ok g
  | Some rel =>
      g ← destroyRelationship g rel silenceNotifications;
      match heap g !! rel with
      | Some (Implicit _) => Ok (setEdgeOf g identifier k None)
      | _ => Ok g
      end
  end.

Definition unload (g : Graph) (identifier : StableRecordIdentifier)
    (silenceNotifications : bool) : Res Graph :=
  match identifiers g !! identifier with
  | Some relationships =>
      forEach (unload_key identifier silenceNotifications) (keys relationships) g
  | None => Ok g
  end.

Definition remove (g : Graph) (identifier : StableRecordIdentifier) : Res Graph :=
  match _removing g with
  | Some _ => Err "Cannot remove while still removing"
  | None =>
      let g := set_removing g (Some identifier) in
      g ← unload g identifier false;
      let g := set_identifiers g (delete identifier (identifiers g)) in
      Ok (set_removing g None)
  end.

(** [push]: remote operations are queued by category. *)
Definition push (g : Graph) (o : Operation) : Res Graph :=
  g ← match op o with
      | op_deleteRecord =>
          let q := _pushedUpdates g in
          Ok (set_pushedUpdates g (mkPushed (belongsTo q) (hasMany q) (deletions q ++ [o])))
      | op_replaceRelatedRecord =>
          let q := _pushedUpdates g in
          Ok (set_pushedUpdates g (mkPushed (belongsTo q ++ [o]) (hasMany q) (deletions q)))
      | _ =>
          '(definition, g) ← getDefinition g (record o) (field o);
          let q := _pushedUpdates g in
          match kind <$> definition with
          | None => Err "TypeError: cannot read properties of null (reading 'kind')"
          | Some KImplicit => Err "Cannot push a remote update for an implicit relationship"
          | Some KBelongsTo =>
              Ok (set_pushedUpdates g (mkPushed (belongsTo q ++ [o]) (hasMany q) (deletions q)))
          | Some KHasMany =>
              Ok (set_pushedUpdates g (mkPushed (belongsTo q) (hasMany q ++ [o]) (deletions q)))
          end
      end;
  if negb (_willSyncRemote g)
  then _schedule (set_willSyncRemote g true) "coalesce"
  else Ok g.

(** [update]: the deleteRecord case is part of graph.ts, the other
    operations are dispatched to the operation processor. *)
Definition update_deleteRecord_key (identifier : StableRecordIdentifier)
    (g : Graph) (k : string) : Res Graph :=
  match identifiers g !! identifier ≫= (fun relationships => nodeGet relationships k) with
  | None => Ok g
  | Some rel => removeCompletelyFromInverse (setEdgeOf g identifier k None) rel
  end.

Definition update (g : Graph) (o : Operation) (isRemote : bool) : Res Graph :=
  g ← (if bool_decide (op o = op_deleteRecord) || bool_decide (op o = op_mergeIdentifiers)
       then Ok g
       else '(relationship, g) ← get g (record o) (field o);
            match heap g !! relationship with
            | Some (Implicit _) => Err "Cannot update an implicit relationship"
            | _ => Ok g
            end);
  match op o with
  | op_mergeIdentifiers =>
      match identifiers g !! record o with
      | Some relationships => mergeIdentifier g o relationships
      | None => Ok g
      end
  | op_updateRelationship =>
      if negb isRemote
      then Err "Can only perform the operation updateRelationship on remote state"
      else if negb (assertValidRelationshipPayload g o)
      then Err "invalid relationship payload"
      else updateRelationshipOperation g o
  | op_deleteRecord =>
      if negb isRemote
      then Err "Can only perform the operation deleteRelationship on remote state"
      else
        let identifier := record o in
        match identifiers g !! identifier with
        | Some relationships =>
            g ← forEach (update_deleteRecord_key identifier) (keys relationships) g;
            Ok (set_identifiers g (delete identifier (identifiers g)))
        | None => Ok g
        end
  | op_replaceRelatedRecord => replaceRelatedRecord g o isRemote
  | op_addToRelatedRecords =>
      if isRemote
      then Err "Can only perform the operation addToRelatedRecords on local state"
      else addToRelatedRecords g o isRemote
  | op_removeFromRelatedRecords =>
      if isRemote
      then Err "Can only perform the operation removeFromRelatedRecords on local state"
      else removeFromRelatedRecords g o isRemote
  | op_replaceRelatedRecords => replaceRelatedRecords g o isRemote
  | op_unknown => Err "No local relationship update operation exists"
  end.

(** [Set.prototype.add] on a set kept in insertion order. *)
Definition setAdd (a : Address) (s : list Address) : list Address :=
  if decide (a ∈ s) then s else s ++ [a].

Definition _scheduleLocalSync (g : Graph) (relationship : Address) : Res Graph :=
  let g := set_updatedRelationships g (setAdd relationship (_updatedRelationships g)) in
  if negb (_willSyncLocal g)
  then _schedule (set_willSyncLocal g true) "sync"
  else Ok g.

Definition _addToTransaction (g : Graph) (relationship : Address) : Res Graph :=
  match _transaction g with
  | None => Err "expected a transaction"
  | Some transaction =>
      let g := modifyEdge g relationship (mapTransactionRef S) in
      Ok (set_transaction g (Some (setAdd relationship transaction)))
  end.

Definition _finalize (g : Graph) : Graph :=
  match _transaction g with
  | Some transaction =>
      let g := foldl (fun g v => modifyEdge g v (mapTransactionRef (fun _ => 0))) g transaction in
      set_transaction g None
  | None => g
  end.

Definition _flushRemoteQueue (g : Graph) : Res Graph :=
  if negb (_willSyncRemote g) then Ok g else
  let g := set_transaction g (Some []) in
  let g := set_willSyncRemote g false in
  let '(mkPushed belongsTo hasMany deletions) := _pushedUpdates g in
  let g := set_pushedUpdates g (mkPushed [] [] []) in
  g ← forEach (fun g o => update g o true) deletions g;
  g ← forEach (fun g o => update g o true) hasMany g;
  g ← forEach (fun g o => update g o true) belongsTo g;
  Ok (_finalize g).

Definition _flushLocalQueue (g : Graph) : Res Graph :=
  if negb (_willSyncLocal g) then Ok g else
  let g := set_willSyncLocal g false in
  let updated := _updatedRelationships g in
  let g := set_updatedRelationships g [] in
  forEach (fun g rel => syncRemoteToLocal g rel) updated g.

(** [destroy], without the module-level registry of graphs. *)
Definition destroy (g : Graph) : Graph :=
  set_isDestroyed (set_identifiers g ∅) true.

End Graph.

(** ** Vocabulary of the statements *)

Section Vocabulary.
Context {env : Collaborators}.

(** The edges [Object.keys] reaches from the node of [identifier]: the
    materialized edges of the identity. *)
Definition edgesOf (g : Graph) (identifier : StableRecordIdentifier) : list GraphEdge :=
  match identifiers g !! identifier with
  | None => []
  | Some relationships =>
      omap (fun k => nodeGet relationships k ≫= (fun a => heap g !! a)) (keys relationships)
  end.

(** Every identity an edge holds, in either layer or membership set. *)
Definition referenced (e : GraphEdge) : list StableRecordIdentifier :=
  match e with
  | Resource r =>
      option_list (ResourceEdge.localState r) ++ option_list (ResourceEdge.remoteState r)
  | Collection c =>
      CollectionEdge.localState c ++ CollectionEdge.remoteState c
      ++ CollectionEdge.localMembers c ++ CollectionEdge.remoteMembers c
  | Implicit i => ImplicitEdge.localMembers i ++ ImplicitEdge.remoteMembers i
  end.


(** What the specification says [remove] does once its guard has passed:
    [unload], then the node leaves the registry. *)
Definition unloadThenDelete (g : Graph) (identifier : StableRecordIdentifier) : Res Graph :=
  g ← unload (set_removing g (Some identifier)) identifier false;
  Ok (set_removing (set_identifiers g (delete identifier (identifiers g))) None).

(** How often [upgradeDefinition] was invoked for a (type, field) pair. *)
Definition resolutionsIn (evs : list Event) (ty propertyName : string) : nat :=
  length (filter (fun e => e = Resolved ty propertyName) evs).
Definition resolutions (g : Graph) (ty propertyName : string) : nat :=
  resolutionsIn (events g) ty propertyName.




(** The three pending queues of [_pushedUpdates]. *)
Inductive Queue : Type := QDeletions | QHasMany | QBelongsTo.

#[global] Instance Queue_eq_dec : EqDecision Queue.
Proof. solve_decision. Defined.

Definition enqueue (q : PushedUpdates) (c : Queue) (o : Operation) : PushedUpdates :=
  match c with
  | QDeletions => mkPushed (belongsTo q) (hasMany q) (deletions q ++ [o])
  | QHasMany => mkPushed (belongsTo q) (hasMany q ++ [o]) (deletions q)
  | QBelongsTo => mkPushed (belongsTo q ++ [o]) (hasMany q) (deletions q)
  end.

(** The queue an operation belongs to, given the definitions [g] has cached:
    by its name for [deleteRecord] and [replaceRelatedRecord], by the kind of
    its field otherwise. *)
Definition queueOf (g : Graph) (o : Operation) : option Queue :=
  match op o with
  | op_deleteRecord => Some QDeletions
  | op_replaceRelatedRecord => Some QBelongsTo
  | _ =>
      match kind <$> cachedMeta g (type (record o)) (field o) with
      | Some KBelongsTo => Some QBelongsTo
      | Some KHasMany => Some QHasMany
      | _ => None
      end
  end.

Definition queued (g : Graph) (c : Queue) (ops : list Operation) : list Operation :=
  filter (fun o => queueOf g o = Some c) ops.

(** A batch of pushes, in push order. *)
Definition pushAll (g : Graph) (ops : list Operation) : Res Graph :=
  forEach push ops g.

(** The graph in which a remote flush starts applying operations: the
    transaction is open and empty, the flag is down, the queues are empty. *)
Definition drained (g : Graph) : Graph :=
  set_pushedUpdates (set_willSyncRemote (set_transaction g (Some [])) false)
    (mkPushed [] [] []).

(** How often a flush was requested from the scheduler on [queue]. *)
Definition requestsIn (evs : list Event) (queue : string) : nat :=
  length (filter (fun e => e = Scheduled queue) evs).
Definition requests (g : Graph) (queue : string) : nat := requestsIn (events g) queue.

(** What a push leaves alone: everything but the queues, the flag, the
    definition caches and the trace. *)
Definition sameEdges (g g' : Graph) : Prop :=
  identifiers g' = identifiers g ∧ heap g' = heap g
  ∧ _transaction g' = _transaction g ∧ _removing g' = _removing g
  ∧ _updatedRelationships g' = _updatedRelationships g
  ∧ _willSyncLocal g' = _willSyncLocal g ∧ isDestroyed g' = isDestroyed g
  ∧ _potentialPolymorphicTypes g' = _potentialPolymorphicTypes g.

(** The [transactionRef] of the edge at an address. *)
Definition transactionRefAt (g : Graph) (a : Address) : nat :=
  match heap g !! a with
  | Some e => edgeTransactionRef e
  | None => 0
  end.


(** Two states of the same edge object: the variant, the definition and the
    owner of an edge never change. *)
Definition sameShape (e e' : GraphEdge) : Prop :=
  edgeDefinition e' = edgeDefinition e ∧ edgeIdentifier e' = edgeIdentifier e
  ∧ isBelongsTo e' = isBelongsTo e ∧ isHasMany e' = isHasMany e.

(** No edge object is lost or changes shape. *)
Definition keepsEdges (g g' : Graph) : Prop :=
  ∀ a e, heap g !! a = Some e -> ∃ e', heap g' !! a = Some e' ∧ sameShape e e'.

(** The callback [destroyRelationship] runs on every related identity. *)
Definition notifyInverses (edge : GraphEdge) (silenceNotifications : bool)
    (g : Graph) : Res Graph :=
  forAllRelatedIdentifiers edge
    (fun g inverseIdentifier =>
       notifyInverseOfDematerialization g inverseIdentifier
         (inverseKey (edgeDefinition edge)) (edgeIdentifier edge) silenceNotifications) g.

(** The address registered for a field of an identity, if any:
    [this.identifiers.get(identifier)?.[propertyName]]. *)
Definition registered (g : Graph) (identifier : StableRecordIdentifier)
    (propertyName : string) : option Address :=
  identifiers g !! identifier ≫= (fun relationships => nodeGet relationships propertyName).

(** The graph once [get] has made sure the identity has a node. *)
Definition withNode (g : Graph) (identifier : StableRecordIdentifier) : Graph :=
  match identifiers g !! identifier with
  | Some _ => g
  | None => set_identifiers g (<[identifier := []]> (identifiers g))
  end.

(** The variant [get] creates for a definition kind. *)
Definition variantOf (e : GraphEdge) : Kind :=
  match e with
  | Resource _ => KBelongsTo
  | Collection _ => KHasMany
  | Implicit _ => KImplicit
  end.

(** Everything of the graph that is neither the registry, nor an edge, nor
    the trace. *)
Definition sameBookkeeping (g g' : Graph) : Prop :=
  _definitionCache g' = _definitionCache g ∧ _metaCache g' = _metaCache g
  ∧ _potentialPolymorphicTypes g' = _potentialPolymorphicTypes g
  ∧ isDestroyed g' = isDestroyed g
  ∧ _willSyncRemote g' = _willSyncRemote g ∧ _willSyncLocal g' = _willSyncLocal g
  ∧ _pushedUpdates g' = _pushedUpdates g
  ∧ _updatedRelationships g' = _updatedRelationships g
  ∧ _transaction g' = _transaction g ∧ _removing g' = _removing g.

Definition isNotification (e : Event) : bool :=
  match e with Notified _ _ => true | _ => false end.

(** The trace grew by change notifications only. *)
Definition onlyNotifies (g g' : Graph) : Prop :=
  ∃ evs, events g' = (events g ++ evs)%list ∧ forallb isNotification evs = true.

(** A step that mutates edge objects in place and notifies, and does nothing
    else: no edge is allocated, none changes shape, the bookkeeping stays. *)
Definition mutatesEdgesOnly (g g' : Graph) : Prop :=
  length (heap g') = length (heap g) ∧ keepsEdges g g'
  ∧ sameBookkeeping g g' ∧ onlyNotifies g g'.

(** Such a step that also leaves the registry alone, or leaves alone the
    nodes of every identity but one. *)
Definition dematerializes (g g' : Graph) : Prop :=
  identifiers g' = identifiers g ∧ mutatesEdgesOnly g g'.
Definition dematerializesNode (x : StableRecordIdentifier) (g g' : Graph) : Prop :=
  (∀ y, y ≠ x -> identifiers g' !! y = identifiers g !! y)
  ∧ (is_Some (identifiers g' !! x) ↔ is_Some (identifiers g !! x))
  ∧ mutatesEdgesOnly g g'.

(** Whether the edge object at an address is an implicit edge. *)
Definition implicitAt (g : Graph) (a : Address) : bool :=
  match heap g !! a with
  | Some (Implicit _) => true
  | _ => false
  end.

(** What [unload] leaves of a registration: implicit edges are set to
    [undefined], the others stay. *)
Definition dropImplicit (g : Graph) (o : option Address) : option Address :=
  match o with
  | Some a => if implicitAt g a then None else Some a
  | None => None
  end.

(** [Set.prototype.add] for each element of a list, in order. *)
Definition setAddAll (rels : list Address) (s : list Address) : list Address :=
  foldl (fun s a => setAdd a s) s rels.

(** A batch of [_scheduleLocalSync] calls, in order. *)
Definition scheduleLocalSyncAll (g : Graph) (rels : list Address) : Res Graph :=
  forEach _scheduleLocalSync rels g.

(** The graph in which a local flush starts visiting edges. *)
Definition drainedLocal (g : Graph) : Graph :=
  set_updatedRelationships (set_willSyncLocal g false) [].

(** The lookup [t1[type2]] in the table of polymorphic types. *)
Definition polymorphicWith (g : Graph) (type1 type2 : string) : option bool :=
  t ← _potentialPolymorphicTypes g !! type1; t !! type2.

(** The state of an edge apart from its [transactionRef]. *)
Definition withoutTransactionRef (e : GraphEdge) : GraphEdge :=
  mapTransactionRef (fun _ => 0) e.

End Vocabulary.

(** ** A concrete schema and store, used to run the model

    Two types: a [post] has an asynchronous to-one [editor] and a synchronous
    to-one [owner], both towards [user]; a [user] has the to-many inverses
    [edited] and [owned].  A [comment] is pointed at by the one-sided
    asynchronous [post.comments], so it carries the implicit inverse
    [implicit-post:comments].  The operation processor is replaced by
    operations that only notify the field they are applied to. *)
Module Demo.

Definition post_editor : UpgradedMeta := mkMeta KBelongsTo "editor" "edited" true false false false.
Definition user_edited : UpgradedMeta := mkMeta KHasMany "edited" "editor" false false true false.
Definition post_owner : UpgradedMeta := mkMeta KBelongsTo "owner" "owned" false false false false.
Definition user_owned : UpgradedMeta := mkMeta KHasMany "owned" "owner" false false false false.
Definition post_comments : UpgradedMeta :=
  mkMeta KHasMany "comments" "implicit-post:comments" true false false true.
Definition comment_post : UpgradedMeta :=
  mkMeta KImplicit "implicit-post:comments" "comments" false true true false.

Definition schema (ty propertyName : string) : option EdgeDefinition :=
  if decide (ty = "post" ∧ propertyName = "editor") then Some (mkInfo post_editor (Some user_edited) "post" "user")
  else if decide (ty = "user" ∧ propertyName = "edited") then Some (mkInfo post_editor (Some user_edited) "post" "user")
  else if decide (ty = "post" ∧ propertyName = "owner") then Some (mkInfo post_owner (Some user_owned) "post" "user")
  else if decide (ty = "user" ∧ propertyName = "owned") then Some (mkInfo post_owner (Some user_owned) "post" "user")
  else if decide (ty = "post" ∧ propertyName = "comments") then Some (mkInfo post_comments (Some comment_post) "post" "comment")
  else if decide (ty = "comment" ∧ propertyName = "implicit-post:comments") then Some (mkInfo post_comments (Some comment_post) "post" "comment")
  else None.

Definition touch (g : Graph) (o : Operation) : Res Graph :=
  Ok (notifyChange g (record o) (field o)).

Definition collaborators (new : StableRecordIdentifier -> bool) : Collaborators := {|
  isNew := new;
  upgradeDefinition g identifier propertyName :=
    (schema (type identifier) propertyName,
     <[type identifier := <[propertyName := schema (type identifier) propertyName]>
                            (default ∅ (_definitionCache g !! type identifier))]>
       (_definitionCache g));
  isLHS info ty propertyName :=
    bool_decide (ty = lhs_baseModelName info ∧ propertyName = key (lhs_definition info));
  mergeIdentifier g o _ := touch g o;
  updateRelationshipOperation := touch;
  assertValidRelationshipPayload _ _ := true;
  replaceRelatedRecord g o _ := touch g o;
  addToRelatedRecords g o _ := touch g o;
  removeFromRelatedRecords g o _ := touch g o;
  replaceRelatedRecords g o _ := touch g o;
  syncRemoteToLocal g _ := Ok g
|}.

Definition persisted : Collaborators := collaborators (fun _ => false).
Definition unpersisted : Collaborators := collaborators (fun _ => true).

Definition A : StableRecordIdentifier := mkIdentifier "post" "post:1".
Definition X : StableRecordIdentifier := mkIdentifier "user" "user:1".
Definition C : StableRecordIdentifier := mkIdentifier "comment" "comment:1".

Definition loaded : RelationshipState := mkState true false false false.

(** [A.editor] (asynchronous) and [A.owner] (synchronous) both point at
    [X]; [X.edited] and [X.owned] point back at [A]. *)
Definition linked : Graph :=
  set_heap
    (set_identifiers newGraph
       (<[A := [("editor", Some 0); ("owner", Some 1)]]>
          (<[X := [("edited", Some 2); ("owned", Some 3)]]> ∅)))
    [ Resource (ResourceEdge.mk post_editor A 0 (Some X) (Some X) loaded);
      Resource (ResourceEdge.mk post_owner A 0 (Some X) (Some X) loaded);
      Collection (CollectionEdge.mk user_edited X 0 [A] [A] [A] [A] loaded);
      Collection (CollectionEdge.mk user_owned X 0 [A] [A] [A] [A] loaded) ].

(** [C] holds nothing but the implicit inverse of the asynchronous
    [post.comments], and nobody points at it. *)
Definition orphan : Graph :=
  set_heap
    (set_identifiers newGraph (<[C := [("implicit-post:comments", Some 0)]]> ∅))
    [ Implicit (ImplicitEdge.mk comment_post C [] []) ].

(** [C] has a single to-one edge whose inverse is asynchronous. *)
Definition comment_author : UpgradedMeta :=
  mkMeta KBelongsTo "author" "comments" false false true false.
Definition authored : Graph :=
  set_heap
    (set_identifiers newGraph (<[C := [("author", Some 0)]]> ∅))
    [ Resource (ResourceEdge.mk comment_author C 0 (Some X) (Some X) loaded) ].

(** The graph [remove] leaves behind when [X] is removed from [linked] and
    every identity is persisted. *)
Definition unlinked : Graph :=
  Eval vm_compute in
    match remove (env := persisted) linked X with
    | Ok g => g
    | Err _ => newGraph
    end.

(** [A.owner] was emptied locally while the server still has [X]. *)
Definition detached : Graph :=
  set_heap
    (set_identifiers newGraph
       (<[A := [("owner", Some 0)]]> (<[X := [("owned", Some 1)]]> ∅)))
    [ Resource (ResourceEdge.mk post_owner A 0 None (Some X) loaded);
      Collection (CollectionEdge.mk user_owned X 0 [] [A] [] [A] loaded) ].

(** [A.editor] joined an open transaction. *)
Definition touched : Graph :=
  Eval vm_compute in
    match _addToTransaction (set_transaction linked (Some [])) 0 with
    | Ok g => g
    | Err _ => newGraph
    end.

(** [linked] after [destroyRelationship] on the synchronous [A.owner], and
    on the asynchronous [A.editor], notifications not silenced. *)
Definition disowned : Graph :=
  Eval vm_compute in
    match destroyRelationship (env := persisted) linked 1 false with
    | Ok g => g
    | Err _ => newGraph
    end.
Definition unedited : Graph :=
  Eval vm_compute in
    match destroyRelationship (env := persisted) linked 0 false with
    | Ok g => g
    | Err _ => newGraph
    end.

(** A batch pushed in the order to-one, to-many, deletion. *)
Definition setEditor : Operation := mkOp op_replaceRelatedRecord A "editor" [X].
Definition setOwned : Operation := mkOp op_updateRelationship X "owned" [A].
Definition deleteComment : Operation := mkOp op_deleteRecord C "" [].
Definition batch : list Operation := [setEditor; setOwned; deleteComment].

Definition pushed : Graph :=
  Eval vm_compute in
    match pushAll (env := persisted) linked batch with
    | Ok g => g
    | Err _ => newGraph
    end.



(** [C] has the implicit inverse of [post.comments], pointed at by [A], and
    a to-one [author]. *)
Definition mixed : Graph :=
  set_heap
    (set_identifiers newGraph
       (<[C := [("implicit-post:comments", Some 0); ("author", Some 1)]]> ∅))
    [ Implicit (ImplicitEdge.mk comment_post C [A] [A]);
      Resource (ResourceEdge.mk comment_author C 0 (Some X) (Some X) loaded) ].

(** [A.comments], whose inverse is implicit, points at [C]. *)
Definition commented : Graph :=
  set_heap
    (set_identifiers newGraph (<[A := [("comments", Some 0)]]> ∅))
    [ Collection (CollectionEdge.mk post_comments A 0 [C] [C] [C] [C] loaded) ].

(** A definition of kind implicit that lacks the [isImplicit] mark. *)
Definition unmarked : UpgradedMeta := mkMeta KImplicit "ghost" "comments" false false false false.
Definition mismarked : Graph :=
  set_metaCache newGraph (<["comment" := <["ghost" := Some unmarked]> ∅]> ∅).

(** A schema whose relationships have no right-hand side, asked from the
    right. *)
Definition lopsided : Collaborators := {|
  isNew _ := false;
  upgradeDefinition g _ _ := (Some (mkInfo post_comments None "post" ""), _definitionCache g);
  isLHS _ _ _ := false;
  mergeIdentifier g o _ := touch g o;
  updateRelationshipOperation := touch;
  assertValidRelationshipPayload _ _ := true;
  replaceRelatedRecord g o _ := touch g o;
  addToRelatedRecords g o _ := touch g o;
  removeFromRelatedRecords g o _ := touch g o;
  replaceRelatedRecords g o _ := touch g o;
  syncRemoteToLocal g _ := Ok g
|}.

Definition unresolved : Graph :=
  Eval vm_compute in
    match getDefinition (env := lopsided) newGraph C "post" with
    | Ok (_, g) => g
    | Err _ => newGraph
    end.

(** Graphs obtained by running the model. *)
Definition materialized : Graph :=
  Eval vm_compute in
    match get (env := persisted) newGraph A "editor" with
    | Ok (_, g) => g
    | Err _ => newGraph
    end.
Definition unloaded : Graph :=
  Eval vm_compute in
    match unload (env := persisted) linked X false with
    | Ok g => g
    | Err _ => newGraph
    end.
Definition unmixed : Graph :=
  Eval vm_compute in
    match unload (env := persisted) mixed C false with
    | Ok g => g
    | Err _ => newGraph
    end.
Definition deleteUser : Operation := mkOp op_deleteRecord X "" [].
Definition deleted : Graph :=
  Eval vm_compute in
    match update (env := persisted) linked deleteUser true with
    | Ok g => g
    | Err _ => newGraph
    end.
Definition disconnected : Graph :=
  Eval vm_compute in
    match removeCompletelyFromInverse (env := persisted) linked 1 with
    | Ok g => g
    | Err _ => newGraph
    end.
Definition scheduled : Graph :=
  Eval vm_compute in
    match scheduleLocalSyncAll linked [2; 3; 2] with
    | Ok g => g
    | Err _ => newGraph
    end.
Definition implicitCached : Graph :=
  Eval vm_compute in
    match getDefinition (env := persisted) newGraph C "implicit-post:comments" with
    | Ok (_, g) => g
    | Err _ => newGraph
    end.
Definition afterDeletePush : Graph :=
  Eval vm_compute in
    match push (env := persisted) linked deleteComment with
    | Ok g => g
    | Err _ => newGraph
    end.

(** A flush is pending on a queue that holds a local-only operation. *)
Definition addOwned : Operation := mkOp op_addToRelatedRecords X "owned" [A].
Definition misqueued : Graph :=
  Eval vm_compute in
    match push (env := persisted) linked addOwned with
    | Ok g => g
    | Err _ => newGraph
    end.

End Demo.

(** ** Generic facts *)

Lemma bind_Ok {A B} (r : Res A) (k : A -> Res B) (b : B) :
  r ≫= k = Ok b -> ∃ a, r = Ok a ∧ k a = Ok b.
Proof. destruct r as [a|m]; simpl; [eauto | discriminate]. Qed.

Lemma forEach_app {A S} (body : S -> A -> Res S) (xs ys : list A) (s : S) :
  forEach body (xs ++ ys) s = forEach body xs s ≫= forEach body ys.
Proof.
  revert s. induction xs as [|x xs IH]; intros s; simpl; [done|].
  destruct (body s x) as [s'|m]; simpl; [apply IH | done].
Qed.

(** An invariant kept by every step of a loop is kept by the loop. *)
Lemma forEach_invariant {A S} (P : S -> Prop) (body : S -> A -> Res S) (xs : list A) :
  (∀ s x s', P s -> body s x = Ok s' -> P s') ->
  ∀ s s', P s -> forEach body xs s = Ok s' -> P s'.
Proof.
  intros Hstep. induction xs as [|x xs IH]; intros s s' Hs; simpl.
  - intros [= <-]. done.
  - intros Hrun. apply bind_Ok in Hrun as (s1 & H1 & H2). eauto.
Qed.

Section Properties.
Context {env : Collaborators}.

(** ** Release gating *)

Lemma isReleasable_keys_false g identifier relationships ks :
  isReleasable_keys g identifier relationships ks = false ↔
  (∃ e, e ∈ omap (fun k => nodeGet relationships k ≫= (fun a => heap g !! a)) ks
        ∧ inverseIsAsync (edgeDefinition e) = true)
  ∧ isNew identifier = false.
Proof.
  induction ks as [|k ks IH]; simpl.
  - split; [discriminate|]. intros [(e & He & _) _]. by apply elem_of_nil in He.
  - destruct (nodeGet relationships k ≫= _) as [e|] eqn:Hk; simpl.
    + destruct (inverseIsAsync (edgeDefinition e)) eqn:Hasync; simpl.
      * destruct (isNew identifier) eqn:Hnew; simpl.
        -- rewrite IH. split; intros [_ ?]; done.
        -- split; [|done]. intros _. split; [|done].
           exists e. split; [apply list_elem_of_here | done].
      * rewrite IH. split.
        -- intros [(e' & He' & Ha) Hn]. split; [|done].
           exists e'. split; [by apply list_elem_of_further | done].
        -- intros [(e' & He' & Ha) Hn]. split; [|done].
           apply elem_of_cons in He' as [->|He']; [congruence|]. eauto.
    + apply IH.
Qed.

Lemma isReleasable_false g identifier :
  isReleasable g identifier = false ↔
  (∃ e, e ∈ edgesOf g identifier ∧ inverseIsAsync (edgeDefinition e) = true)
  ∧ isNew identifier = false.
Proof.
  unfold isReleasable, edgesOf. destruct (identifiers g !! identifier) as [relationships|].
  - apply isReleasable_keys_false.
  - split; [discriminate|]. intros [(e & He & _) _]. by apply elem_of_nil in He.
Qed.

(** C5, amended.  [isReleasable] is true for an identity without
    materialized edges; it is false exactly when some materialized edge's
    definition marks the inverse as asynchronous and the identity is not
    new.  So an identity whose only edge is a to-one edge with an
    asynchronous inverse is releasable exactly when it is new, and an
    identity with only implicit edges is releasable when none of their
    definitions marks the inverse as asynchronous (the members of the edges
    play no part). *)
Theorem isReleasable_gating (g : Graph) (identifier : StableRecordIdentifier) :
  (edgesOf g identifier = [] -> isReleasable g identifier = true)
  ∧ (isReleasable g identifier = false ↔
       (∃ e, e ∈ edgesOf g identifier ∧ inverseIsAsync (edgeDefinition e) = true)
       ∧ isNew identifier = false)
  ∧ (∀ r, edgesOf g identifier = [Resource r] ->
          inverseIsAsync (ResourceEdge.definition r) = true ->
          isReleasable g identifier = isNew identifier)
  ∧ ((∀ e, e ∈ edgesOf g identifier ->
           isImplicitEdge e = true ∧ inverseIsAsync (edgeDefinition e) = false) ->
     isReleasable g identifier = true).
Proof.
  pose proof (isReleasable_false g identifier) as Hiff.
  split; [|split; [exact Hiff|split]].
  - intros Hnone. apply not_false_iff_true. rewrite Hiff, Hnone.
    intros [(e & He & _) _]. by apply elem_of_nil in He.
  - intros r Hone Hasync. destruct (isNew identifier) eqn:Hnew.
    + apply not_false_iff_true. rewrite Hiff. intros [_ ?]. done.
    + apply Hiff. split; [|done]. exists (Resource r).
      rewrite Hone. split; [apply list_elem_of_here | done].
  - intros Hall. apply not_false_iff_true. rewrite Hiff.
    intros [(e & He & Ha) _]. destruct (Hall e He) as [_ Hsync]. congruence.
Qed.

(** ** Removal *)


(** C8, amended.  [remove(identity)] raises whenever a removal is in
    progress, be it of a different identity or of the same one; when none is
    in progress it performs [unload(identity)] and then deletes the node from
    the registry. *)
Theorem remove_guard (g : Graph) (X : StableRecordIdentifier) :
  (∀ Y, _removing g = Some Y -> ∃ msg, remove g X = Err msg)
  ∧ (_removing g = None -> remove g X = unloadThenDelete g X).
Proof.
  unfold remove, unloadThenDelete. split.
  - intros Y ->. eauto.
  - intros ->. done.
Qed.

(** ** Spurious flushes *)

(** C10.  [_flushRemoteQueue] with [_willSyncRemote] false, and
    [_flushLocalQueue] with [_willSyncLocal] false, return at once and leave
    the whole graph as it was: no transaction is opened, no queue drained,
    no edge touched. *)
Theorem flush_not_pending (g : Graph) :
  (_willSyncRemote g = false -> _flushRemoteQueue g = Ok g)
  ∧ (_willSyncLocal g = false -> _flushLocalQueue g = Ok g).
Proof.
  unfold _flushRemoteQueue, _flushLocalQueue. split; intros ->; done.
Qed.

End Properties.

(** ** The properties at work on the concrete schema *)

Lemma isReleasable_gating_witness :
  isReleasable (env := Demo.persisted) Demo.authored Demo.C = false
  ∧ isReleasable (env := Demo.unpersisted) Demo.authored Demo.C = true
  ∧ isReleasable (env := Demo.persisted) newGraph Demo.C = true.
Proof.
  split; [|split].
  - apply (proj1 (proj2 (proj2 (isReleasable_gating (env := Demo.persisted) Demo.authored Demo.C)))
             (ResourceEdge.mk Demo.comment_author Demo.C 0 (Some Demo.X) (Some Demo.X) Demo.loaded));
      reflexivity.
  - apply (proj1 (proj2 (proj2 (isReleasable_gating (env := Demo.unpersisted) Demo.authored Demo.C)))
             (ResourceEdge.mk Demo.comment_author Demo.C 0 (Some Demo.X) (Some Demo.X) Demo.loaded));
      reflexivity.
  - apply (proj1 (isReleasable_gating (env := Demo.persisted) newGraph Demo.C)). reflexivity.
Defined.

(** C5 as stated fails: a persisted identity whose only edge is an implicit
    edge without members is not releasable when that edge's definition marks
    the inverse as asynchronous. *)
Lemma implicit_edge_blocks_release :
  edgesOf Demo.orphan Demo.C = [Implicit (ImplicitEdge.mk Demo.comment_post Demo.C [] [])]
  ∧ isNew (Collaborators := Demo.persisted) Demo.C = false
  ∧ isReleasable (env := Demo.persisted) Demo.orphan Demo.C = false.
Proof. vm_compute. done. Qed.



Lemma remove_guard_witness :
  (∃ msg, remove (env := Demo.persisted) (set_removing Demo.linked (Some Demo.A)) Demo.X = Err msg)
  ∧ remove (env := Demo.persisted) Demo.linked Demo.X
    = unloadThenDelete (env := Demo.persisted) Demo.linked Demo.X.
Proof.
  split.
  - apply (proj1 (remove_guard (env := Demo.persisted) (set_removing Demo.linked (Some Demo.A)) Demo.X)
             Demo.A).
    reflexivity.
  - apply (proj2 (remove_guard (env := Demo.persisted) Demo.linked Demo.X)). reflexivity.
Defined.

(** C8 as stated fails: while a removal of [X] itself is in progress no
    removal of a different identity is, yet [remove(X)] raises instead of
    unloading. *)
Lemma remove_same_identity_in_progress :
  ¬ (∀ g X,
       ((∃ Y, _removing g = Some Y ∧ Y ≠ X) -> ∃ msg, remove (env := Demo.persisted) g X = Err msg)
       ∧ (¬ (∃ Y, _removing g = Some Y ∧ Y ≠ X) ->
          remove (env := Demo.persisted) g X = unloadThenDelete (env := Demo.persisted) g X)).
Proof.
  intros Hclaim.
  destruct (Hclaim (set_removing Demo.linked (Some Demo.X)) Demo.X) as [_ Hother].
  assert (¬ (∃ Y, _removing (set_removing Demo.linked (Some Demo.X)) = Some Y ∧ Y ≠ Demo.X))
    as Hnone by (intros (Y & [= <-] & Hne); by apply Hne).
  specialize (Hother Hnone). vm_compute in Hother. discriminate.
Qed.

Lemma flush_not_pending_witness :
  _flushRemoteQueue (env := Demo.persisted) Demo.linked = Ok Demo.linked
  ∧ _flushLocalQueue (env := Demo.persisted) Demo.linked = Ok Demo.linked.
Proof.
  destruct (flush_not_pending (env := Demo.persisted) Demo.linked) as [Hremote Hlocal].
  split; [apply Hremote | apply Hlocal]; reflexivity.
Defined.

(** ** The definition cache *)

Section DefinitionCache.
Context {env : Collaborators}.

Lemma cachedMeta_insert (g : Graph) (ty propertyName : string) (meta : option UpgradedMeta)
    (ty' propertyName' : string) :
  cachedMeta
    (set_metaCache g
       (<[ty := <[propertyName := meta]> (default ∅ (_metaCache g !! ty))]> (_metaCache g)))
    ty' propertyName'
  = if decide (ty = ty' ∧ propertyName = propertyName') then meta
    else cachedMeta g ty' propertyName'.
Proof.
  unfold cachedMeta; simpl. destruct (decide (ty = ty')) as [<-|Hty].
  - rewrite lookup_insert_eq; simpl.
    destruct (decide (propertyName = propertyName')) as [<-|Hp].
    + rewrite lookup_insert_eq; simpl. by rewrite decide_True.
    + rewrite lookup_insert_ne by done. rewrite decide_False by tauto.
      destruct (_metaCache g !! ty); simpl; [done|]. by rewrite lookup_empty.
  - rewrite lookup_insert_ne by done. by rewrite decide_False by tauto.
Qed.

Lemma getDefinition_hit (g : Graph) (identifier : StableRecordIdentifier)
    (propertyName : string) (meta : UpgradedMeta) :
  cachedMeta g (type identifier) propertyName = Some meta ->
  getDefinition g identifier propertyName = Ok (Some meta, g).
Proof. unfold getDefinition. by intros ->. Qed.

(** What one call of [getDefinition] does to the cache and to the trace. *)
Lemma getDefinition_effect (g g1 : Graph) (identifier : StableRecordIdentifier)
    (propertyName : string) (meta : option UpgradedMeta) :
  getDefinition g identifier propertyName = Ok (meta, g1) ->
  (is_Some (cachedMeta g (type identifier) propertyName)
   ∧ g1 = g ∧ meta = cachedMeta g (type identifier) propertyName)
  ∨ (cachedMeta g (type identifier) propertyName = None
     ∧ events g1 = (events g ++ [Resolved (type identifier) propertyName])%list
     ∧ ∀ ty' propertyName',
         cachedMeta g1 ty' propertyName'
         = if decide (type identifier = ty' ∧ propertyName = propertyName') then meta
           else cachedMeta g ty' propertyName').
Proof.
  unfold getDefinition.
  destruct (cachedMeta g (type identifier) propertyName) as [m|] eqn:Hc.
  - intros [= <- <-]. left. eauto.
  - destruct (upgradeDefinition g identifier propertyName) as [[info|] cache];
      [|discriminate].
    intros [= <- <-]. right. split; [done|]. split; [done|].
    intros ty' propertyName'.
    rewrite (cachedMeta_insert
               (set_events (set_definitionCache g cache)
                  (events g ++ [Resolved (type identifier) propertyName]))).
    done.
Qed.

Lemma resolutionsIn_app (evs evs' : list Event) (ty propertyName : string) :
  resolutionsIn (evs ++ evs')%list ty propertyName
  = resolutionsIn evs ty propertyName + resolutionsIn evs' ty propertyName.
Proof. unfold resolutionsIn. by rewrite filter_app, length_app. Qed.

Lemma resolutionsIn_one (ty propertyName ty' propertyName' : string) :
  resolutionsIn [Resolved ty propertyName] ty' propertyName'
  = if decide (ty = ty' ∧ propertyName = propertyName') then 1 else 0.
Proof.
  unfold resolutionsIn. rewrite filter_cons, filter_nil.
  destruct (decide (ty = ty' ∧ propertyName = propertyName')) as [[-> ->]|Hne].
  - by rewrite decide_True.
  - rewrite decide_False; [done|]. intros [= -> ->]. tauto.
Qed.




End DefinitionCache.

(** ** Coalescing of remote pushes *)

Section Coalescing.
Context {env : Collaborators}.

Lemma requestsIn_app (evs evs' : list Event) (queue : string) :
  requestsIn (evs ++ evs')%list queue = requestsIn evs queue + requestsIn evs' queue.
Proof. unfold requestsIn. by rewrite filter_app, length_app. Qed.

Lemma getDefinition_sameEdges (g g1 : Graph) (identifier : StableRecordIdentifier)
    (propertyName : string) (meta : option UpgradedMeta) :
  getDefinition g identifier propertyName = Ok (meta, g1) ->
  sameEdges g g1 ∧ _pushedUpdates g1 = _pushedUpdates g
  ∧ _willSyncRemote g1 = _willSyncRemote g
  ∧ requests g1 "coalesce" = requests g "coalesce"
  ∧ meta = cachedMeta g1 (type identifier) propertyName
  ∧ ∀ ty f m, cachedMeta g ty f = Some m -> cachedMeta g1 ty f = Some m.
Proof.
  intros Hrun. pose proof Hrun as Heff.
  apply getDefinition_effect in Heff as [(Hsome & -> & ->)|(Hmiss & Hev & Hcache)].
  - unfold sameEdges. done.
  - unfold getDefinition in Hrun. rewrite Hmiss in Hrun.
    destruct (upgradeDefinition g identifier propertyName) as [[info|] cache];
      [|discriminate].
    injection Hrun as <- <-. unfold sameEdges; simpl. repeat split; try done.
    + unfold requests; simpl. by rewrite requestsIn_app, Nat.add_0_r.
    + rewrite Hcache. by rewrite decide_True.
    + intros ty f m Hm. rewrite Hcache. case_decide as Heq; [|done].
      destruct Heq as [<- <-]. congruence.
Qed.

(** One push: the operation joins the queue of its category, a flush is
    requested only if none was pending, and no edge is touched. *)
Lemma push_effect (g g' : Graph) (o : Operation) :
  push g o = Ok g' ->
  _willSyncRemote g' = true
  ∧ requests g' "coalesce" = requests g "coalesce" + (if _willSyncRemote g then 0 else 1)
  ∧ (∃ c, queueOf g' o = Some c ∧ _pushedUpdates g' = enqueue (_pushedUpdates g) c o)
  ∧ sameEdges g g'
  ∧ ∀ ty f m, cachedMeta g ty f = Some m -> cachedMeta g' ty f = Some m.
Proof.
  unfold push. intros Hrun. apply bind_Ok in Hrun as (g1 & Hqueue & Hsched).
  assert (_willSyncRemote g1 = _willSyncRemote g
          ∧ requests g1 "coalesce" = requests g "coalesce"
          ∧ (∃ c, queueOf g1 o = Some c ∧ _pushedUpdates g1 = enqueue (_pushedUpdates g) c o)
          ∧ sameEdges g g1
          ∧ ∀ ty f m, cachedMeta g ty f = Some m -> cachedMeta g1 ty f = Some m)
    as (Hflag & Hreq & Hq & Hsame & Hmono).
  { assert (∀ c, queueOf g o = Some c ->
              set_pushedUpdates g (enqueue (_pushedUpdates g) c o) = g1 ->
              _willSyncRemote g1 = _willSyncRemote g
              ∧ requests g1 "coalesce" = requests g "coalesce"
              ∧ (∃ c, queueOf g1 o = Some c
                      ∧ _pushedUpdates g1 = enqueue (_pushedUpdates g) c o)
              ∧ sameEdges g g1
              ∧ ∀ ty f m, cachedMeta g ty f = Some m -> cachedMeta g1 ty f = Some m)
      as Hdirect.
    { intros c Hc <-. unfold sameEdges. repeat split; eauto. }
    assert ((meta ← getDefinition g (record o) (field o);
             let '(definition, g) := meta in
             let q := _pushedUpdates g in
             match kind <$> definition with
             | None => Err "TypeError: cannot read properties of null (reading 'kind')"
             | Some KImplicit => Err "Cannot push a remote update for an implicit relationship"
             | Some KBelongsTo =>
                 Ok (set_pushedUpdates g (mkPushed (belongsTo q ++ [o]) (hasMany q) (deletions q)))
             | Some KHasMany =>
                 Ok (set_pushedUpdates g (mkPushed (belongsTo q) (hasMany q ++ [o]) (deletions q)))
             end) = Ok g1 ->
            op o ≠ op_deleteRecord -> op o ≠ op_replaceRelatedRecord ->
            _willSyncRemote g1 = _willSyncRemote g
            ∧ requests g1 "coalesce" = requests g "coalesce"
            ∧ (∃ c, queueOf g1 o = Some c
                    ∧ _pushedUpdates g1 = enqueue (_pushedUpdates g) c o)
            ∧ sameEdges g g1
            ∧ ∀ ty f m, cachedMeta g ty f = Some m -> cachedMeta g1 ty f = Some m)
      as Hlookup.
    { intros Hrun Hnd Hnr. apply bind_Ok in Hrun as ([definition g2] & Hdef & Hrest).
      apply getDefinition_sameEdges in Hdef
        as (Hsame & Hqueues & Hflag & Hreq & Hmeta & Hmono).
      assert (∀ c k, kind <$> definition = Some k ->
                match k with
                | KBelongsTo => Some QBelongsTo
                | KHasMany => Some QHasMany
                | KImplicit => None
                end = Some c ->
                g1 = set_pushedUpdates g2 (enqueue (_pushedUpdates g2) c o) ->
                _willSyncRemote g1 = _willSyncRemote g
                ∧ requests g1 "coalesce" = requests g "coalesce"
                ∧ (∃ c, queueOf g1 o = Some c
                        ∧ _pushedUpdates g1 = enqueue (_pushedUpdates g) c o)
                ∧ sameEdges g g1
                ∧ ∀ ty f m, cachedMeta g ty f = Some m -> cachedMeta g1 ty f = Some m)
        as Hkind.
      { intros c k Hk Hc ->. split; [done|]. split; [done|]. split; [|split; [exact Hsame|exact Hmono]].
        exists c. split; [|simpl; by rewrite Hqueues].
        unfold queueOf.
        replace (cachedMeta (set_pushedUpdates g2 (enqueue (_pushedUpdates g2) c o))
                   (type (record o)) (field o)) with definition by exact Hmeta.
        rewrite Hk. destruct (op o), k; done. }
      destruct (kind <$> definition) as [[]|] eqn:Hk; try discriminate;
        injection Hrest as <-.
      - by apply (Hkind QBelongsTo KBelongsTo).
      - by apply (Hkind QHasMany KHasMany). }
    destruct (op o) eqn:Hop; try (apply Hlookup; [exact Hqueue|done|done]).
    - apply (Hdirect QDeletions); [unfold queueOf; by rewrite Hop|]. by injection Hqueue.
    - apply (Hdirect QBelongsTo); [unfold queueOf; by rewrite Hop|]. by injection Hqueue. }
  rewrite <- Hflag, <- Hreq. destruct (_willSyncRemote g1) eqn:Hw; simpl in Hsched.
  - injection Hsched as <-. rewrite Hw, Nat.add_0_r. done.
  - unfold _schedule in Hsched. simpl in Hsched.
    destruct (isDestroyed g1); [discriminate|]. injection Hsched as <-.
    split; [done|]. split.
    + unfold requests; simpl. by rewrite requestsIn_app.
    + split; [|split; [exact Hsame|exact Hmono]].
      destruct Hq as (c & Hc & Hqc). exists c. split; [exact Hc|exact Hqc].
Qed.

Lemma queueOf_mono (g g' : Graph) (o : Operation) (c : Queue) :
  (∀ ty f m, cachedMeta g ty f = Some m -> cachedMeta g' ty f = Some m) ->
  queueOf g o = Some c -> queueOf g' o = Some c.
Proof.
  intros Hmono. unfold queueOf.
  destruct (cachedMeta g (type (record o)) (field o)) as [m|] eqn:Hm.
  - by rewrite (Hmono _ _ _ Hm).
  - simpl. destruct (op o); done.
Qed.

Lemma sameEdges_trans (g1 g2 g3 : Graph) :
  sameEdges g1 g2 -> sameEdges g2 g3 -> sameEdges g1 g3.
Proof.
  unfold sameEdges. intros (?&?&?&?&?&?&?&?) (?&?&?&?&?&?&?&?).
  repeat split; congruence.
Qed.

(** A batch of pushes: every operation sits in the queue of its category, in
    push order, and the batch requested at most one flush. *)
Lemma pushAll_effect (ops : list Operation) :
  ∀ g g', pushAll g ops = Ok g' ->
    _pushedUpdates g'
    = mkPushed (belongsTo (_pushedUpdates g) ++ queued g' QBelongsTo ops)
               (hasMany (_pushedUpdates g) ++ queued g' QHasMany ops)
               (deletions (_pushedUpdates g) ++ queued g' QDeletions ops)
    ∧ (∀ o, o ∈ ops -> is_Some (queueOf g' o))
    ∧ (∀ ty f m, cachedMeta g ty f = Some m -> cachedMeta g' ty f = Some m)
    ∧ sameEdges g g'
    ∧ requests g' "coalesce"
      = requests g "coalesce"
        + (if _willSyncRemote g then 0 else match ops with [] => 0 | _ => 1 end)
    ∧ _willSyncRemote g' = match ops with [] => _willSyncRemote g | _ => true end.
Proof.
  unfold pushAll. induction ops as [|o ops IH]; intros g g'; simpl.
  - intros [= <-]. unfold queued. rewrite !filter_nil, !app_nil_r.
    split; [by destruct (_pushedUpdates g)|]. split; [intros o Ho; by apply elem_of_nil in Ho|].
    split; [done|]. split; [unfold sameEdges; done|].
    split; [destruct (_willSyncRemote g); lia | done].
  - intros Hrun. apply bind_Ok in Hrun as (g1 & Hpush & Hrest).
    apply push_effect in Hpush as (Hflag1 & Hreq1 & (c & Hc & Hq1) & Hsame1 & Hmono1).
    apply IH in Hrest as (Hq & Hall & Hmono & Hsame & Hreq & Hflag).
    assert (queueOf g' o = Some c) as Hc' by eauto using queueOf_mono.
    split; [|split; [|split; [|split; [|split]]]].
    + rewrite Hq, Hq1. unfold queued. rewrite !filter_cons, Hc'.
      destruct c; simpl;
        repeat (rewrite decide_True by done || rewrite decide_False by done);
        by rewrite <- ?app_assoc.
    + intros o' Ho'. apply elem_of_cons in Ho' as [->|Ho']; [by rewrite Hc'|eauto].
    + eauto.
    + eauto using sameEdges_trans.
    + rewrite Hreq, Hreq1, Hflag1. lia.
    + rewrite Hflag. by destruct ops.
Qed.

End Coalescing.

Section Batches.
Context {env : Collaborators}.




Lemma flushRemoteQueue_order (g : Graph) :
  _willSyncRemote g = true ->
  _flushRemoteQueue g
  = (g' ← forEach (fun g o => update g o true)
            (deletions (_pushedUpdates g) ++ hasMany (_pushedUpdates g)
             ++ belongsTo (_pushedUpdates g))
            (drained g);
     Ok (_finalize g')).
Proof.
  intros Hflag. unfold _flushRemoteQueue, drained. rewrite Hflag; simpl.
  destruct (_pushedUpdates g) as [bs hs ds]; simpl. rewrite !forEach_app.
  destruct (forEach _ ds _) as [g1|]; simpl; [|done].
  rewrite forEach_app.
  destruct (forEach _ hs _) as [g2|]; simpl; done.
Qed.

(** C6.  A push requests a flush on the "coalesce" queue exactly when
    [_willSyncRemote] is false, and raises the flag; otherwise it only
    appends the operation to the queue of its category.  In both cases no
    edge is touched.  Hence a batch of pushes that starts with no flush
    pending requests exactly one flush.  The flush lowers the flag before it
    applies anything, so the next push requests again. *)
Theorem push_coalesces :
  (∀ g o g',
     push g o = Ok g' ->
     _willSyncRemote g' = true
     ∧ requests g' "coalesce" = requests g "coalesce" + (if _willSyncRemote g then 0 else 1)
     ∧ (∃ c, _pushedUpdates g' = enqueue (_pushedUpdates g) c o)
     ∧ sameEdges g g')
  ∧ (∀ g o ops g',
       _willSyncRemote g = false ->
       pushAll g (o :: ops) = Ok g' ->
       requests g' "coalesce" = requests g "coalesce" + 1 ∧ _willSyncRemote g' = true)
  ∧ (∀ g,
       _willSyncRemote g = true ->
       _willSyncRemote (drained g) = false
       ∧ _flushRemoteQueue g
         = (g' ← forEach (fun g o => update g o true)
                   (deletions (_pushedUpdates g) ++ hasMany (_pushedUpdates g)
                    ++ belongsTo (_pushedUpdates g))
                   (drained g);
            Ok (_finalize g'))).
Proof.
  split; [|split].
  - intros g o g' Hpush.
    apply push_effect in Hpush as (Hflag & Hreq & (c & _ & Hq) & Hsame & _). eauto.
  - intros g o ops g' Hflag Hrun.
    apply pushAll_effect in Hrun as (_ & _ & _ & _ & Hreq & Hflag').
    rewrite Hflag in Hreq. done.
  - intros g Hflag. split; [done|]. by apply flushRemoteQueue_order.
Qed.

Lemma queued_partition (g : Graph) (ops : list Operation) :
  (∀ o, o ∈ ops -> is_Some (queueOf g o)) ->
  ops ≡ₚ queued g QDeletions ops ++ queued g QHasMany ops ++ queued g QBelongsTo ops.
Proof.
  unfold queued. induction ops as [|o ops IH]; intros Hall; [done|].
  rewrite !filter_cons.
  destruct (Hall o) as [c Hc]; [apply list_elem_of_here|]. rewrite Hc.
  assert (ops ≡ₚ filter (fun o => queueOf g o = Some QDeletions) ops
                 ++ filter (fun o => queueOf g o = Some QHasMany) ops
                 ++ filter (fun o => queueOf g o = Some QBelongsTo) ops) as Hrest.
  { apply IH. intros o' Ho'. apply Hall. by apply list_elem_of_further. }
  destruct c; simpl.
  - by constructor.
  - rewrite <- Permutation_middle. by constructor.
  - rewrite (app_assoc _ _ (o :: _)), <- Permutation_middle, <- app_assoc. by constructor.
Qed.

(** C1.  After a batch of pushes into empty queues, in whatever order, each
    pushed operation sits in exactly one queue: the [deleteRecord]
    operations in [deletions], the others in [hasMany] or [belongsTo].
    [_flushRemoteQueue] then empties the three queues and applies, through
    [update] in remote mode, all deletions, then all to-many updates, then
    all to-one updates, before it finalizes the transaction. *)
Theorem flush_applies_by_category (g g' : Graph) (ops : list Operation) :
  _pushedUpdates g = mkPushed [] [] [] ->
  ops ≠ [] ->
  pushAll g ops = Ok g' ->
  let dels := queued g' QDeletions ops in
  let manys := queued g' QHasMany ops in
  let ones := queued g' QBelongsTo ops in
  _pushedUpdates g' = mkPushed ones manys dels
  ∧ ops ≡ₚ dels ++ manys ++ ones
  ∧ dels = filter (fun o => op o = op_deleteRecord) ops
  ∧ _pushedUpdates (drained g') = mkPushed [] [] []
  ∧ _flushRemoteQueue g'
    = (g'' ← forEach (fun g o => update g o true) (dels ++ manys ++ ones) (drained g');
       Ok (_finalize g'')).
Proof.
  intros Hempty Hne Hrun dels manys ones.
  apply pushAll_effect in Hrun as (Hq & Hall & _ & _ & _ & Hflag).
  rewrite Hempty in Hq; simpl in Hq.
  split; [exact Hq|]. split; [by apply queued_partition|]. split; [|split; [done|]].
  - subst dels. unfold queued. apply list_filter_iff. intros o. unfold queueOf.
    destruct (op o); destruct (kind <$> cachedMeta g' (type (record o)) (field o)) as [[]|];
      split; (done || discriminate).
  - rewrite flushRemoteQueue_order by (rewrite Hflag; by destruct ops).
    by rewrite Hq.
Qed.

End Batches.


Lemma push_coalesces_witness :
  requests Demo.pushed "coalesce" = requests Demo.linked "coalesce" + 1
  ∧ _willSyncRemote Demo.pushed = true.
Proof.
  apply (proj1 (proj2 (push_coalesces (env := Demo.persisted)))
           Demo.linked Demo.setEditor [Demo.setOwned; Demo.deleteComment]);
    [|vm_compute]; reflexivity.
Defined.

Lemma flush_applies_by_category_witness :
  _pushedUpdates Demo.pushed
  = mkPushed [Demo.setEditor] [Demo.setOwned] [Demo.deleteComment]
  ∧ Demo.batch ≡ₚ [Demo.deleteComment; Demo.setOwned; Demo.setEditor].
Proof.
  destruct (flush_applies_by_category (env := Demo.persisted)
              Demo.linked Demo.pushed Demo.batch) as (Hq & Hperm & _);
    [reflexivity | discriminate | vm_compute; reflexivity |].
  vm_compute in Hq. split; [exact Hq | exact Hperm].
Defined.


(** ** The transaction of a remote flush *)

Section Transaction.
Context {env : Collaborators}.

Lemma transactionRefAt_modifyEdge (g : Graph) (a b : Address) (f : nat -> nat) :
  transactionRefAt (modifyEdge g a (mapTransactionRef f)) b
  = if decide (a = b)
    then match heap g !! a with
         | Some (Implicit _) | None => 0
         | Some e => f (edgeTransactionRef e)
         end
    else transactionRefAt g b.
Proof.
  unfold transactionRefAt, modifyEdge; simpl. case_decide as Hab.
  - subst b. rewrite list_lookup_alter_eq. destruct (heap g !! a) as [[]|]; simpl; done.
  - by rewrite list_lookup_alter_ne.
Qed.

Lemma transactionRefAt_zeroed (t : list Address) :
  ∀ g a,
    transactionRefAt
      (foldl (fun g v => modifyEdge g v (mapTransactionRef (fun _ => 0))) g t) a
    = if decide (a ∈ t) then 0 else transactionRefAt g a.
Proof.
  induction t as [|v t IH]; intros g a; cbn [foldl].
  - case_decide as Hin; [by apply elem_of_nil in Hin | done].
  - rewrite IH. destruct (decide (a ∈ t)) as [Hin|Hout].
    + rewrite decide_True; [done|]. by apply list_elem_of_further.
    + rewrite transactionRefAt_modifyEdge. destruct (decide (v = a)) as [->|Hne].
      * rewrite decide_True by apply list_elem_of_here.
        unfold transactionRefAt. destruct (heap g !! a) as [[]|]; done.
      * rewrite decide_False; [done|].
        intros Hin. apply elem_of_cons in Hin as [->|Hin]; done.
Qed.

Lemma elem_of_setAdd (a b : Address) (t : list Address) :
  b ∈ setAdd a t ↔ b = a ∨ b ∈ t.
Proof.
  unfold setAdd. case_decide as Hin.
  - split; [by right|]. intros [->|Hb]; done.
  - rewrite elem_of_app, list_elem_of_singleton. tauto.
Qed.


End Transaction.


(** ** Dematerialization of an inverse *)

Section Dematerialization.
Context {env : Collaborators}.

Lemma not_elem_of_without (x : StableRecordIdentifier) (l : list StableRecordIdentifier) :
  x ∉ without x l.
Proof. unfold without. rewrite list_elem_of_filter. tauto. Qed.

Lemma heap_notify_unless (g : Graph) (silenceNotifications : bool)
    (identifier : StableRecordIdentifier) (k : string) :
  heap (if negb silenceNotifications then notifyChange g identifier k else g) = heap g.
Proof. by destruct silenceNotifications. Qed.

(** C4, amended.  [removeDematerializedInverse(graph, edge, X)], for an edge
    that is asynchronous while [X] is persisted: the state layers and member
    lists stay as they are and [hasDematerializedInverse] becomes true (for
    a to-one edge, provided its [localState] is [X] or null).  For an edge
    that is synchronous, or with [X] unpersisted: a to-one edge whose
    [localState] is [X] has it nulled, and its [remoteState] is nulled too,
    with [hasReceivedData] and [isEmpty] set, when it was [X]; a to-many
    edge is handed to the complete-removal primitive, after which it does
    not reference [X]. *)
Theorem removeDematerializedInverse_branches (g : Graph) (a : Address)
    (X : StableRecordIdentifier) (silenceNotifications : bool) :
  (∀ r, heap g !! a = Some (Resource r) ->
     (isAsync (ResourceEdge.definition r) = true -> isNew X = false ->
      ResourceEdge.localState r = None ∨ ResourceEdge.localState r = Some X ->
      heap (removeDematerializedInverse g a X silenceNotifications) !! a
      = Some (Resource (setResourceState r
                          (set_hasDematerializedInverse (ResourceEdge.state r) true))))
     ∧ (isAsync (ResourceEdge.definition r) = false ∨ isNew X = true ->
        ResourceEdge.localState r = Some X ->
        ∃ r', heap (removeDematerializedInverse g a X silenceNotifications) !! a
              = Some (Resource r')
              ∧ ResourceEdge.localState r' = None
              ∧ ResourceEdge.remoteState r' ≠ Some X
              ∧ (ResourceEdge.remoteState r = Some X ->
                 ResourceEdge.remoteState r' = None
                 ∧ hasReceivedData (ResourceEdge.state r') = true
                 ∧ isEmpty (ResourceEdge.state r') = true)
              ∧ (ResourceEdge.remoteState r ≠ Some X ->
                 ResourceEdge.remoteState r' = ResourceEdge.remoteState r
                 ∧ ResourceEdge.state r' = ResourceEdge.state r)))
  ∧ (∀ c, heap g !! a = Some (Collection c) ->
       (isAsync (CollectionEdge.definition c) = true -> isNew X = false ->
        heap (removeDematerializedInverse g a X silenceNotifications) !! a
        = Some (mapState (fun s => set_hasDematerializedInverse s true) (Collection c)))
       ∧ (isAsync (CollectionEdge.definition c) = false ∨ isNew X = true ->
          heap (removeDematerializedInverse g a X silenceNotifications) !! a
          = Some (removeIdentifierCompletely (Collection c) X)
          ∧ X ∉ referenced (removeIdentifierCompletely (Collection c) X))).
Proof.
  split.
  - intros r Hr. pose proof (lookup_lt_Some _ _ _ Hr) as Hlt.
    unfold removeDematerializedInverse. rewrite Hr. split.
    + intros Hasync Hold Hlocal. rewrite heap_notify_unless; simpl.
      rewrite list_lookup_insert_eq by done. rewrite Hasync; simpl.
      destruct Hlocal as [->| ->]; [done|]. by rewrite Hold.
    + intros Hreal Hlocal. rewrite heap_notify_unless; simpl.
      rewrite list_lookup_insert_eq by done. rewrite Hlocal.
      replace (negb (isAsync (ResourceEdge.definition r)) || isNew X) with true
        by (destruct Hreal as [-> | ->]; [done | by rewrite orb_true_r]).
      rewrite (bool_decide_eq_true_2 (Some X = Some X)) by done.
      rewrite (bool_decide_eq_true_2 (Some X ≠ None)) by done. simpl.
      case_bool_decide as Hremote; simpl.
      * eexists. split; [done|]. simpl. repeat split; done.
      * eexists. split; [done|]. simpl. repeat split; done.
  - intros c Hc. unfold removeDematerializedInverse. rewrite Hc. split.
    + intros Hasync Hold. rewrite heap_notify_unless. simpl. rewrite Hasync, Hold. simpl.
      by rewrite list_lookup_alter_eq, Hc.
    + intros Hreal. rewrite heap_notify_unless. simpl.
      replace (negb (isAsync (CollectionEdge.definition c)) || isNew X) with true
        by (destruct Hreal as [-> | ->]; [done | by rewrite orb_true_r]).
      simpl. rewrite list_lookup_alter_eq, Hc. split; [done|]. simpl.
      rewrite !elem_of_app. pose proof (not_elem_of_without X) as Hout.
      intros [?|[?|[?|?]]]; by eapply Hout.
Qed.

End Dematerialization.

Lemma removeDematerializedInverse_branches_witness :
  (∃ r', heap (removeDematerializedInverse (env := Demo.persisted) Demo.linked 0 Demo.X false) !! 0
         = Some (Resource r')
         ∧ ResourceEdge.localState r' = Some Demo.X
         ∧ hasDematerializedInverse (ResourceEdge.state r') = true)
  ∧ (∃ r', heap (removeDematerializedInverse (env := Demo.persisted) Demo.linked 1 Demo.X false) !! 1
           = Some (Resource r')
           ∧ ResourceEdge.localState r' = None ∧ ResourceEdge.remoteState r' = None)
  ∧ Demo.A ∉ referenced
               (removeIdentifierCompletely
                  (Collection (CollectionEdge.mk Demo.user_owned Demo.X 0
                                 [Demo.A] [Demo.A] [Demo.A] [Demo.A] Demo.loaded)) Demo.A).
Proof.
  split; [|split].
  - destruct (removeDematerializedInverse_branches (env := Demo.persisted)
                Demo.linked 0 Demo.X false) as [Hone _].
    destruct (Hone (ResourceEdge.mk Demo.post_editor Demo.A 0
                      (Some Demo.X) (Some Demo.X) Demo.loaded) eq_refl) as [Hsoft _].
    eexists. split; [apply Hsoft; [reflexivity | reflexivity | by right]|]. done.
  - destruct (removeDematerializedInverse_branches (env := Demo.persisted)
                Demo.linked 1 Demo.X false) as [Hone _].
    destruct (Hone (ResourceEdge.mk Demo.post_owner Demo.A 0
                      (Some Demo.X) (Some Demo.X) Demo.loaded) eq_refl) as [_ Hhard].
    destruct Hhard as (r' & Hr' & Hlocal & _ & Hremote & _); [by left | reflexivity |].
    exists r'. split; [exact Hr'|]. split; [exact Hlocal|]. by apply Hremote.
  - destruct (removeDematerializedInverse_branches (env := Demo.persisted)
                Demo.linked 3 Demo.A false) as [_ Hmany].
    destruct (Hmany (CollectionEdge.mk Demo.user_owned Demo.X 0
                       [Demo.A] [Demo.A] [Demo.A] [Demo.A] Demo.loaded) eq_refl) as [_ Hhard].
    apply Hhard. by left.
Defined.

(** C4 as stated fails: [A.owner] is synchronous and its server state is
    [X] while its local state is null; dematerializing [X] leaves the
    reference to [X] in place. *)
Lemma remote_only_reference_survives :
  ∃ r r' g',
    heap Demo.detached !! 0 = Some (Resource r)
    ∧ isAsync (ResourceEdge.definition r) = false
    ∧ ResourceEdge.remoteState r = Some Demo.X
    ∧ heap (removeDematerializedInverse (env := Demo.persisted) Demo.detached 0 Demo.X false) !! 0
      = Some (Resource r')
    ∧ ResourceEdge.remoteState r' = Some Demo.X
    ∧ hasDematerializedInverse (ResourceEdge.state r') = false
    ∧ unload (env := Demo.persisted) Demo.detached Demo.X false = Ok g'
    ∧ heap g' !! 0 = Some (Resource r').
Proof. do 3 eexists. vm_compute. repeat split; reflexivity. Qed.

(** ** Unloading an edge *)

Section Unloading.
Context {env : Collaborators}.

Lemma sameShape_refl (e : GraphEdge) : sameShape e e.
Proof. unfold sameShape. done. Qed.

Lemma sameShape_trans (e1 e2 e3 : GraphEdge) :
  sameShape e1 e2 -> sameShape e2 e3 -> sameShape e1 e3.
Proof. unfold sameShape. intros (?&?&?&?) (?&?&?&?). repeat split; congruence. Qed.

Lemma keepsEdges_refl (g : Graph) : keepsEdges g g.
Proof. intros a e He. eauto using sameShape_refl. Qed.

Lemma keepsEdges_trans (g1 g2 g3 : Graph) :
  keepsEdges g1 g2 -> keepsEdges g2 g3 -> keepsEdges g1 g3.
Proof.
  intros H12 H23 a e He. destruct (H12 a e He) as (e2 & He2 & Hs2).
  destruct (H23 a e2 He2) as (e3 & He3 & Hs3). eauto using sameShape_trans.
Qed.

Lemma keepsEdges_heap (g g' : Graph) : heap g' = heap g -> keepsEdges g g'.
Proof. intros Hheap a e He. rewrite Hheap. eauto using sameShape_refl. Qed.

Lemma keepsEdges_modifyEdge (g : Graph) (a : Address) (f : GraphEdge -> GraphEdge) :
  (∀ e, sameShape e (f e)) -> keepsEdges g (modifyEdge g a f).
Proof.
  intros Hf b e He. unfold modifyEdge; simpl. destruct (decide (a = b)) as [->|Hne].
  - rewrite list_lookup_alter_eq, He. simpl. eauto.
  - rewrite list_lookup_alter_ne by done. eauto using sameShape_refl.
Qed.

Lemma sameShape_mapState (f : RelationshipState -> RelationshipState) (e : GraphEdge) :
  sameShape e (mapState f e).
Proof. destruct e; unfold sameShape; done. Qed.

Lemma sameShape_clearRelationship (e : GraphEdge) : sameShape e (clearRelationship e).
Proof. destruct e; unfold sameShape; done. Qed.

Lemma sameShape_removeIdentifierCompletely (e : GraphEdge) (x : StableRecordIdentifier) :
  sameShape e (removeIdentifierCompletely e x).
Proof. destruct e; unfold sameShape; done. Qed.

Lemma get_heap (g g1 : Graph) (identifier : StableRecordIdentifier) (propertyName : string)
    (a : Address) :
  get g identifier propertyName = Ok (a, g1) ->
  heap g1 = heap g ∨ ∃ e, heap g1 = (heap g ++ [e])%list.
Proof.
  unfold get. case_decide; [discriminate|].
  assert (∀ g0 relationships,
            heap g0 = heap g ->
            match nodeGet relationships propertyName with
            | Some relationship => Ok (relationship, g0)
            | None =>
                '(meta, g) ← getDefinition g0 identifier propertyName;
                match meta with
                | None => Err "TypeError: cannot read properties of null (reading 'kind')"
                | Some meta =>
                    edge ← match kind meta with
                           | KBelongsTo => Ok (Resource (createResourceEdge meta identifier))
                           | KHasMany => Ok (Collection (createCollectionEdge meta identifier))
                           | KImplicit =>
                               if isImplicit meta
                               then Ok (Implicit (createImplicitEdge meta identifier))
                               else Err "Expected kind to be implicit"
                           end;
                    let '(relationship, g) := alloc g edge in
                    Ok (relationship, setEdgeOf g identifier propertyName (Some relationship))
                end
            end = Ok (a, g1) ->
            heap g1 = heap g ∨ ∃ e, heap g1 = (heap g ++ [e])%list) as Hbody.
  { intros g0 relationships Hheap. destruct (nodeGet relationships propertyName).
    - intros [= _ <-]. by left.
    - intros Hrun. apply bind_Ok in Hrun as ([[meta|] g2] & Hdef & Hrest); [|discriminate].
      apply bind_Ok in Hrest as (edge & _ & [= _ <-]).
      apply getDefinition_sameEdges in Hdef as ((_ & Hheap2 & _) & _).
      right. exists edge. simpl. by rewrite Hheap2, Hheap. }
  destruct (identifiers g !! identifier); by apply Hbody.
Qed.

Lemma get_keepsEdges (g g1 : Graph) (identifier : StableRecordIdentifier)
    (propertyName : string) (a : Address) :
  get g identifier propertyName = Ok (a, g1) -> keepsEdges g g1.
Proof.
  intros Hget. apply get_heap in Hget as [Hheap|[e Hheap]].
  - by apply keepsEdges_heap.
  - intros b e' He'. rewrite Hheap, lookup_app_l by eauto using lookup_lt_Some.
    eauto using sameShape_refl.
Qed.

Lemma keepsEdges_notify_unless (g g' : Graph) (silenceNotifications : bool)
    (identifier : StableRecordIdentifier) (k : string) :
  keepsEdges g g' ->
  keepsEdges g (if negb silenceNotifications then notifyChange g' identifier k else g').
Proof.
  intros Hkeep. eapply keepsEdges_trans; [exact Hkeep|].
  apply keepsEdges_heap. apply heap_notify_unless.
Qed.

Lemma removeDematerializedInverse_keepsEdges (g : Graph) (a : Address)
    (x : StableRecordIdentifier) (silenceNotifications : bool) :
  keepsEdges g (removeDematerializedInverse g a x silenceNotifications).
Proof.
  unfold removeDematerializedInverse.
  destruct (heap g !! a) as [[r|c|i]|] eqn:Ha; [| | |apply keepsEdges_refl].
  - apply keepsEdges_notify_unless. intros b e He. simpl.
    destruct (decide (a = b)) as [<-|Hne].
    + rewrite list_lookup_insert_eq by eauto using lookup_lt_Some.
      eexists. split; [done|]. rewrite Ha in He. injection He as <-.
      unfold sameShape. repeat split; try done;
        repeat (case_match; simpl; try done).
    + rewrite list_lookup_insert_ne by done. eauto using sameShape_refl.
  - apply keepsEdges_notify_unless. case_match.
    + apply (keepsEdges_modifyEdge g a (fun e => removeIdentifierCompletely e x)).
      intros e. apply sameShape_removeIdentifierCompletely.
    + apply keepsEdges_modifyEdge. intros e. apply sameShape_mapState.
  - apply keepsEdges_notify_unless. case_match.
    + apply (keepsEdges_modifyEdge g a (fun e => removeIdentifierCompletely e x)).
      intros e. apply sameShape_removeIdentifierCompletely.
    + apply keepsEdges_modifyEdge. intros e. apply sameShape_mapState.
Qed.

Lemma notifyInverseOfDematerialization_keepsEdges (g g' : Graph)
    (inverseIdentifier identifier : StableRecordIdentifier) (inverseKey : string)
    (silenceNotifications : bool) :
  notifyInverseOfDematerialization g inverseIdentifier inverseKey identifier
    silenceNotifications = Ok g' ->
  keepsEdges g g'.
Proof.
  unfold notifyInverseOfDematerialization.
  destruct (has g inverseIdentifier inverseKey); simpl;
    [|intros [= <-]; apply keepsEdges_refl].
  intros Hrun. apply bind_Ok in Hrun as ([a g1] & Hget & Hrest).
  apply get_keepsEdges in Hget.
  destruct (heap g1 !! a) as [[r|c|i]|]; try discriminate.
  - case_match; injection Hrest as <-; [|done].
    eauto using keepsEdges_trans, removeDematerializedInverse_keepsEdges.
  - injection Hrest as <-.
    eauto using keepsEdges_trans, removeDematerializedInverse_keepsEdges.
Qed.

Lemma notifyInverses_keepsEdges (edge : GraphEdge) (silenceNotifications : bool)
    (g g' : Graph) :
  notifyInverses edge silenceNotifications g = Ok g' -> keepsEdges g g'.
Proof.
  unfold notifyInverses, forAllRelatedIdentifiers.
  apply (forEach_invariant (keepsEdges g)); [|apply keepsEdges_refl].
  intros g1 x g2 Hkeep Hstep.
  eauto using keepsEdges_trans, notifyInverseOfDematerialization_keepsEdges.
Qed.

(** C9, amended.  When [destroyRelationship] handles a non-implicit edge
    whose inverse is neither implicit nor asynchronous, then, after the
    inverse edges have been told, the edge is marked stale, both state
    layers and both membership sets are emptied, and a change notification
    for the edge's own (identity, field) is emitted exactly when the field
    is synchronous and the caller did not silence notifications. *)
Theorem destroyRelationship_hard_delete (g g' : Graph) (rel : Address) (edge : GraphEdge)
    (silenceNotifications : bool) :
  heap g !! rel = Some edge ->
  isImplicitEdge edge = false ->
  inverseIsImplicit (edgeDefinition edge) = false ->
  inverseIsAsync (edgeDefinition edge) = false ->
  destroyRelationship g rel silenceNotifications = Ok g' ->
  ∃ g1 edge',
    notifyInverses edge silenceNotifications g = Ok g1
    ∧ heap g' !! rel = Some edge'
    ∧ sameShape edge edge'
    ∧ isStale <$> edgeState edge' = Some true
    ∧ referenced edge' = []
    ∧ events g'
      = (events g1
         ++ if negb (isAsync (edgeDefinition edge)) && negb silenceNotifications
            then [Notified (edgeIdentifier edge) (key (edgeDefinition edge))]
            else [])%list.
Proof.
  intros He Himpl Hinv Hsync Hrun.
  assert ((g1 ← notifyInverses edge silenceNotifications g;
           let g2 := modifyEdge (modifyEdge g1 rel (mapState (fun s => set_isStale s true)))
                       rel clearRelationship in
           if negb (isAsync (edgeDefinition edge)) && negb silenceNotifications
           then Ok (notifyChange g2 (edgeIdentifier edge) (key (edgeDefinition edge)))
           else Ok g2) = Ok g') as Hsteps.
  { unfold destroyRelationship in Hrun. rewrite He in Hrun.
    destruct edge as [r|c|i]; [| |discriminate];
      simpl in Hinv, Hsync; simpl edgeDefinition in Hrun;
      rewrite Hinv, Hsync in Hrun; exact Hrun. }
  apply bind_Ok in Hsteps as (g1 & Hnotify & Hrest).
  destruct (notifyInverses_keepsEdges _ _ _ _ Hnotify rel edge He) as (e1 & He1 & Hshape).
  exists g1, (clearRelationship (mapState (fun s => set_isStale s true) e1)).
  split; [exact Hnotify|].
  assert (heap (modifyEdge (modifyEdge g1 rel (mapState (fun s => set_isStale s true)))
                  rel clearRelationship) !! rel
          = Some (clearRelationship (mapState (fun s => set_isStale s true) e1))) as Hedge.
  { unfold modifyEdge; simpl. by rewrite !list_lookup_alter_eq, He1. }
  split; [|split; [|split; [|split]]].
  - destruct (negb (isAsync (edgeDefinition edge)) && negb silenceNotifications);
      injection Hrest as <-; exact Hedge.
  - eauto using sameShape_trans, sameShape_mapState, sameShape_clearRelationship.
  - destruct Hshape as (_ & _ & Hone & Hmany).
    destruct edge, e1; try discriminate; done.
  - destruct Hshape as (_ & _ & Hone & Hmany).
    destruct edge, e1; try discriminate; done.
  - destruct (negb (isAsync (edgeDefinition edge)) && negb silenceNotifications);
      injection Hrest as <-; simpl; [done | by rewrite app_nil_r].
Qed.

End Unloading.

Lemma destroyRelationship_hard_delete_witness :
  ∃ edge',
    heap Demo.disowned !! 1 = Some edge'
    ∧ isStale <$> edgeState edge' = Some true
    ∧ referenced edge' = [].
Proof.
  destruct (destroyRelationship_hard_delete (env := Demo.persisted)
              Demo.linked Demo.disowned 1
              (Resource (ResourceEdge.mk Demo.post_owner Demo.A 0
                           (Some Demo.X) (Some Demo.X) Demo.loaded)) false)
    as (g1 & edge' & _ & Hedge & _ & Hstale & Hclear & _);
    [reflexivity | reflexivity | reflexivity | reflexivity | vm_compute; reflexivity |].
  exists edge'. split; [exact Hedge|]. split; [exact Hstale | exact Hclear].
Defined.

(** C9 as stated fails: both [A.owner] and [A.editor] are non-implicit edges
    whose inverse is neither implicit nor asynchronous.  Unloading the
    synchronous [A.owner] notifies (A, owner); unloading the asynchronous
    [A.editor] emits no notification for (A, editor). *)
Lemma own_notification_is_for_sync_fields :
  (isAsync Demo.post_owner = false
   ∧ inverseIsImplicit Demo.post_owner = false ∧ inverseIsAsync Demo.post_owner = false
   ∧ destroyRelationship (env := Demo.persisted) Demo.linked 1 false = Ok Demo.disowned
   ∧ Notified Demo.A "owner" ∈ events Demo.disowned)
  ∧ (isAsync Demo.post_editor = true
     ∧ inverseIsImplicit Demo.post_editor = false ∧ inverseIsAsync Demo.post_editor = false
     ∧ destroyRelationship (env := Demo.persisted) Demo.linked 0 false = Ok Demo.unedited
     ∧ Notified Demo.A "editor" ∉ events Demo.unedited).
Proof.
  split.
  - repeat split; try (vm_compute; reflexivity).
    apply (bool_decide_unpack _). vm_compute. exact I.
  - repeat split; try (vm_compute; reflexivity).
    intros Hin. apply (bool_decide_pack _) in Hin. vm_compute in Hin. exact Hin.
Qed.

(** * Further properties of graph.ts *)

(** ** The node registry: [has] and [get] *)

Section Registry.
Context {env : Collaborators}.

Lemma nodeGet_nodeSet (relationships : Node) (k k' : string) (v : option Address) :
  nodeGet (nodeSet relationships k v) k'
  = if decide (k = k') then v else nodeGet relationships k'.
Proof.
  induction relationships as [|[k0 v0] rest IH]; simpl.
  - repeat case_decide; congruence.
  - destruct (decide (k0 = k)) as [->|Hne]; simpl.
    + repeat case_decide; congruence.
    + rewrite IH. repeat case_decide; congruence.
Qed.

Lemma has_registered (g : Graph) (identifier : StableRecordIdentifier) (propertyName : string) :
  has g identifier propertyName = true ↔ is_Some (registered g identifier propertyName).
Proof.
  unfold has, registered. destruct (identifiers g !! identifier) as [relationships|]; simpl.
  - rewrite bool_decide_eq_true. destruct (nodeGet relationships propertyName).
    + split; [eauto | done].
    + split; [done | intros [? [=]]].
  - split; [done | intros [? [=]]].
Qed.

Lemma has_false_registered (g : Graph) (identifier : StableRecordIdentifier)
    (propertyName : string) :
  has g identifier propertyName = false ↔ registered g identifier propertyName = None.
Proof.
  rewrite <- not_true_iff_false, has_registered.
  destruct (registered g identifier propertyName); split; try done.
  intros Hno. destruct Hno. eauto.
Qed.

Lemma registered_setEdgeOf (g : Graph) (identifier identifier' : StableRecordIdentifier)
    (k k' : string) (v : option Address) :
  registered (setEdgeOf g identifier k v) identifier' k'
  = if decide (identifier = identifier' ∧ k = k')
    then (match identifiers g !! identifier with Some _ => v | None => None end)
    else registered g identifier' k'.
Proof.
  unfold registered, setEdgeOf; simpl.
  destruct (decide (identifier = identifier')) as [<-|Hne].
  - rewrite lookup_alter_eq. destruct (identifiers g !! identifier) as [n|]; simpl.
    + rewrite nodeGet_nodeSet. repeat case_decide; try done; tauto.
    + by case_decide.
  - rewrite lookup_alter_ne by done. rewrite decide_False by tauto. done.
Qed.

(** The three ways through [get]. *)
Lemma get_empty_name (g : Graph) (identifier : StableRecordIdentifier) :
  get g identifier "" = Err "expected propertyName".
Proof. done. Qed.

Lemma get_hit (g : Graph) (identifier : StableRecordIdentifier) (propertyName : string)
    (a : Address) :
  propertyName ≠ "" ->
  registered g identifier propertyName = Some a ->
  get g identifier propertyName = Ok (a, g).
Proof.
  intros Hname. unfold registered, get. rewrite decide_False by done.
  destruct (identifiers g !! identifier) as [relationships|]; simpl; [|done].
  by intros ->.
Qed.

Lemma get_miss (g : Graph) (identifier : StableRecordIdentifier) (propertyName : string) :
  propertyName ≠ "" ->
  registered g identifier propertyName = None ->
  get g identifier propertyName
  = ('(meta, g) ← getDefinition (withNode g identifier) identifier propertyName;
     match meta with
     | None => Err "TypeError: cannot read properties of null (reading 'kind')"
     | Some meta =>
         edge ← match kind meta with
                | KBelongsTo => Ok (Resource (createResourceEdge meta identifier))
                | KHasMany => Ok (Collection (createCollectionEdge meta identifier))
                | KImplicit =>
                    if isImplicit meta
                    then Ok (Implicit (createImplicitEdge meta identifier))
                    else Err "Expected kind to be implicit"
                end;
         let '(relationship, g) := alloc g edge in
         Ok (relationship, setEdgeOf g identifier propertyName (Some relationship))
     end).
Proof.
  intros Hname. unfold registered, get, withNode. rewrite decide_False by done.
  destruct (identifiers g !! identifier) as [relationships|]; simpl; [|done].
  by intros ->.
Qed.

Lemma withNode_lookup (g : Graph) (identifier : StableRecordIdentifier) :
  is_Some (identifiers (withNode g identifier) !! identifier).
Proof.
  unfold withNode. destruct (identifiers g !! identifier) eqn:Hn; simpl.
  - rewrite Hn. eauto.
  - rewrite lookup_insert_eq. eauto.
Qed.

Lemma registered_withNode (g : Graph) (identifier identifier' : StableRecordIdentifier)
    (k : string) :
  registered (withNode g identifier) identifier' k = registered g identifier' k.
Proof.
  unfold withNode, registered. destruct (identifiers g !! identifier) eqn:Hn; [done|]. simpl.
  destruct (decide (identifier = identifier')) as [<-|Hne].
  - by rewrite lookup_insert_eq, Hn.
  - by rewrite lookup_insert_ne.
Qed.

(** What a [get] that has to create the edge returns. *)
Lemma get_miss_result (g g1 : Graph) (identifier : StableRecordIdentifier)
    (propertyName : string) (a : Address) :
  registered g identifier propertyName = None ->
  get g identifier propertyName = Ok (a, g1) ->
  ∃ meta g2 edge,
    getDefinition (withNode g identifier) identifier propertyName = Ok (Some meta, g2)
    ∧ a = length (heap g2)
    ∧ g1 = setEdgeOf (set_heap g2 (heap g2 ++ [edge])) identifier propertyName (Some a)
    ∧ edgeDefinition edge = meta ∧ edgeIdentifier edge = identifier
    ∧ variantOf edge = kind meta.
Proof.
  intros Hnone Hget.
  destruct (decide (propertyName = "")) as [->|Hname]; [discriminate|].
  rewrite get_miss in Hget by done.
  apply bind_Ok in Hget as ([[meta|] g2] & Hdef & Hrest); [|discriminate].
  apply bind_Ok in Hrest as (edge & Hedge & [= <- <-]).
  exists meta, g2, edge. split; [done|]. split; [done|]. split; [done|].
  destruct (kind meta) eqn:Hk.
  - injection Hedge as <-. done.
  - injection Hedge as <-. done.
  - destruct (isImplicit meta); [|discriminate]. injection Hedge as <-. done.
Qed.

(** X1.  Whatever [get(identifier, field)] returns is registered: right
    after it [has(identifier, field)] is true, and a second [get] returns
    the same edge object and changes nothing at all. *)
Theorem get_then_has (g g1 : Graph) (identifier : StableRecordIdentifier)
    (propertyName : string) (a : Address) :
  get g identifier propertyName = Ok (a, g1) ->
  has g1 identifier propertyName = true
  ∧ registered g1 identifier propertyName = Some a
  ∧ get g1 identifier propertyName = Ok (a, g1).
Proof.
  intros Hget.
  assert (propertyName ≠ "") as Hname by (intros ->; discriminate).
  assert (registered g1 identifier propertyName = Some a) as Hreg.
  { destruct (registered g identifier propertyName) as [a0|] eqn:Hold.
    - rewrite (get_hit g identifier propertyName a0) in Hget by done.
      by injection Hget as <- <-.
    - destruct (get_miss_result _ _ _ _ _ Hold Hget)
        as (meta & g2 & edge & Hdef & -> & -> & _).
      rewrite registered_setEdgeOf, decide_True by done. simpl.
      apply getDefinition_sameEdges in Hdef as ((Hids & _) & _). rewrite Hids.
      by destruct (withNode_lookup g identifier) as [n ->]. }
  split; [apply has_registered; eauto|]. split; [done|]. by apply get_hit.
Qed.

(** X2.  When [get] has to create the edge, the new edge object is the next
    allocation, is owned by [identifier], carries the definition that is now
    cached for the (type, field) pair, and is of the variant named by the
    definition's kind; no existing edge object changes and no other field of
    any identity is registered or unregistered. *)
Theorem get_creates_edge (g g1 : Graph) (identifier : StableRecordIdentifier)
    (propertyName : string) (a : Address) :
  has g identifier propertyName = false ->
  get g identifier propertyName = Ok (a, g1) ->
  ∃ edge,
    a = length (heap g) ∧ heap g1 = (heap g ++ [edge])%list
    ∧ edgeIdentifier edge = identifier
    ∧ cachedMeta g1 (type identifier) propertyName = Some (edgeDefinition edge)
    ∧ variantOf edge = kind (edgeDefinition edge)
    ∧ ∀ identifier' propertyName',
        (identifier', propertyName') ≠ (identifier, propertyName) ->
        registered g1 identifier' propertyName' = registered g identifier' propertyName'.
Proof.
  intros Hhas Hget. apply has_false_registered in Hhas.
  destruct (get_miss_result _ _ _ _ _ Hhas Hget)
    as (meta & g2 & edge & Hdef & -> & -> & <- & Hid & Hkind).
  apply getDefinition_sameEdges in Hdef as ((Hids & Hheap & _) & _ & _ & _ & Hmeta & _).
  assert (heap g2 = heap g) as Hheap' by (rewrite Hheap; unfold withNode; by case_match).
  exists edge. rewrite Hheap'. split; [done|]. split; [done|]. split; [done|].
  split; [by rewrite Hmeta|]. split; [done|].
  intros identifier' propertyName' Hne.
  rewrite registered_setEdgeOf, decide_False by (intros [<- <-]; by apply Hne).
  unfold registered at 1. simpl. rewrite Hids.
  apply (registered_withNode g identifier identifier' propertyName').
Qed.

(** X3.  [get] on a field that [has] reports as materialized always
    succeeds (for a non-empty field name) and is a pure lookup: the graph is
    returned as it was, so nothing is allocated and no definition is
    resolved. *)
Theorem get_existing_is_lookup (g : Graph) (identifier : StableRecordIdentifier)
    (propertyName : string) :
  has g identifier propertyName = true ->
  propertyName ≠ "" ->
  ∃ a, registered g identifier propertyName = Some a
       ∧ get g identifier propertyName = Ok (a, g).
Proof.
  intros Hhas Hname. apply has_registered in Hhas as [a Ha].
  exists a. split; [done|]. by apply get_hit.
Qed.

(** X4.  [get] raises for the empty field name whatever the graph holds;
    and, for a field without an edge, it raises when the schema cannot
    resolve the field, and when the cached definition has kind implicit
    without the [isImplicit] mark. *)
Theorem get_raises (g : Graph) (identifier : StableRecordIdentifier) :
  (∃ msg, get g identifier "" = Err msg)
  ∧ (∀ propertyName,
       propertyName ≠ "" ->
       has g identifier propertyName = false ->
       cachedMeta g (type identifier) propertyName = None ->
       (upgradeDefinition (withNode g identifier) identifier propertyName).1 = None ->
       ∃ msg, get g identifier propertyName = Err msg)
  ∧ (∀ propertyName meta,
       propertyName ≠ "" ->
       has g identifier propertyName = false ->
       cachedMeta g (type identifier) propertyName = Some meta ->
       kind meta = KImplicit -> isImplicit meta = false ->
       ∃ msg, get g identifier propertyName = Err msg).
Proof.
  assert (∀ propertyName,
            cachedMeta (withNode g identifier) (type identifier) propertyName
            = cachedMeta g (type identifier) propertyName) as Hcache.
  { intros propertyName. unfold withNode. by case_match. }
  split; [eauto using get_empty_name|]. split.
  - intros propertyName Hname Hhas Hmiss Hschema. apply has_false_registered in Hhas.
    rewrite get_miss by done. unfold getDefinition. rewrite Hcache, Hmiss.
    destruct (upgradeDefinition (withNode g identifier) identifier propertyName)
      as [[info|] cache]; [discriminate|]. simpl. eauto.
  - intros propertyName meta Hname Hhas Hhit Hkind Hmark. apply has_false_registered in Hhas.
    rewrite get_miss by done.
    rewrite (getDefinition_hit (withNode g identifier) identifier propertyName meta)
      by (by rewrite Hcache).
    simpl. rewrite Hkind, Hmark. simpl. eauto.
Qed.

End Registry.

(** ** What dematerialization can and cannot touch *)

Ltac same_bookkeeping := unfold sameBookkeeping; simpl; done.
Ltac no_events := exists []; simpl; by rewrite app_nil_r.

Section Frames.
Context {env : Collaborators}.

Lemma sameBookkeeping_refl (g : Graph) : sameBookkeeping g g.
Proof. unfold sameBookkeeping. done. Qed.

Lemma sameBookkeeping_trans (g1 g2 g3 : Graph) :
  sameBookkeeping g1 g2 -> sameBookkeeping g2 g3 -> sameBookkeeping g1 g3.
Proof.
  unfold sameBookkeeping. intros (?&?&?&?&?&?&?&?&?&?) (?&?&?&?&?&?&?&?&?&?).
  repeat split; congruence.
Qed.

Lemma onlyNotifies_refl (g : Graph) : onlyNotifies g g.
Proof. exists []. by rewrite app_nil_r. Qed.

Lemma onlyNotifies_trans (g1 g2 g3 : Graph) :
  onlyNotifies g1 g2 -> onlyNotifies g2 g3 -> onlyNotifies g1 g3.
Proof.
  intros (evs & Hev & Hall) (evs' & Hev' & Hall'). exists (evs ++ evs')%list.
  rewrite Hev', Hev, app_assoc. split; [done|]. rewrite forallb_app, Hall, Hall'. done.
Qed.

Lemma mutatesEdgesOnly_refl (g : Graph) : mutatesEdgesOnly g g.
Proof.
  unfold mutatesEdgesOnly. split; [done|]. split; [apply keepsEdges_refl|].
  split; [apply sameBookkeeping_refl | apply onlyNotifies_refl].
Qed.

Lemma mutatesEdgesOnly_trans (g1 g2 g3 : Graph) :
  mutatesEdgesOnly g1 g2 -> mutatesEdgesOnly g2 g3 -> mutatesEdgesOnly g1 g3.
Proof.
  unfold mutatesEdgesOnly. intros (Hl & ? & ? & ?) (Hl' & ? & ? & ?).
  split; [congruence|]. split; [eauto using keepsEdges_trans|].
  split; [eauto using sameBookkeeping_trans | eauto using onlyNotifies_trans].
Qed.

Lemma dematerializes_refl (g : Graph) : dematerializes g g.
Proof. split; [done | apply mutatesEdgesOnly_refl]. Qed.

Lemma dematerializes_trans (g1 g2 g3 : Graph) :
  dematerializes g1 g2 -> dematerializes g2 g3 -> dematerializes g1 g3.
Proof.
  intros [Hi H12] [Hi' H23]. split; [congruence | eauto using mutatesEdgesOnly_trans].
Qed.

Lemma dematerializes_modifyEdge (g : Graph) (a : Address) (f : GraphEdge -> GraphEdge) :
  (∀ e, sameShape e (f e)) -> dematerializes g (modifyEdge g a f).
Proof.
  intros Hf. split; [done|]. split; [simpl; apply length_alter|].
  split; [by apply keepsEdges_modifyEdge|].
  split; [same_bookkeeping | no_events].
Qed.

Lemma dematerializes_notifyChange (g : Graph) (identifier : StableRecordIdentifier)
    (k : string) :
  dematerializes g (notifyChange g identifier k).
Proof.
  split; [done|]. split; [done|]. split; [by apply keepsEdges_heap|].
  split; [same_bookkeeping|]. by exists [Notified identifier k].
Qed.

Lemma dematerializes_notify_unless (g g' : Graph) (silenceNotifications : bool)
    (identifier : StableRecordIdentifier) (k : string) :
  dematerializes g g' ->
  dematerializes g (if negb silenceNotifications then notifyChange g' identifier k else g').
Proof.
  intros Hd. destruct silenceNotifications; simpl; [done|].
  eauto using dematerializes_trans, dematerializes_notifyChange.
Qed.

Lemma dematerializes_forEach {A} (body : Graph -> A -> Res Graph) (xs : list A) :
  (∀ g x g', body g x = Ok g' -> dematerializes g g') ->
  ∀ g g', forEach body xs g = Ok g' -> dematerializes g g'.
Proof.
  intros Hbody g g'. apply (forEach_invariant (dematerializes g)).
  - intros g1 x g2 Hd Hstep. eauto using dematerializes_trans.
  - apply dematerializes_refl.
Qed.

Lemma get_of_has (g g1 : Graph) (identifier : StableRecordIdentifier)
    (propertyName : string) (a : Address) :
  has g identifier propertyName = true ->
  get g identifier propertyName = Ok (a, g1) ->
  g1 = g ∧ registered g identifier propertyName = Some a.
Proof.
  intros Hhas Hget.
  assert (propertyName ≠ "") as Hname by (intros ->; discriminate).
  apply has_registered in Hhas as [a0 Ha0].
  rewrite (get_hit g identifier propertyName a0) in Hget by done.
  by injection Hget as <- <-.
Qed.

Lemma removeDematerializedInverse_dematerializes (g : Graph) (a : Address)
    (x : StableRecordIdentifier) (silenceNotifications : bool) :
  dematerializes g (removeDematerializedInverse g a x silenceNotifications).
Proof.
  unfold removeDematerializedInverse.
  destruct (heap g !! a) as [[r|c|i]|] eqn:Ha; [| | |apply dematerializes_refl].
  - apply dematerializes_notify_unless. split; [done|].
    split; [simpl; apply length_insert|]. split.
    + intros b e He. simpl. destruct (decide (a = b)) as [<-|Hne].
      * rewrite list_lookup_insert_eq by eauto using lookup_lt_Some.
        eexists. split; [done|]. rewrite Ha in He. injection He as <-.
        unfold sameShape. repeat split; try done; repeat (case_match; simpl; try done).
      * rewrite list_lookup_insert_ne by done. eauto using sameShape_refl.
    + split; [same_bookkeeping | no_events].
  - apply dematerializes_notify_unless. case_match.
    + apply (dematerializes_modifyEdge g a (fun e => removeIdentifierCompletely e x)).
      intros e. apply sameShape_removeIdentifierCompletely.
    + apply dematerializes_modifyEdge. intros e. apply sameShape_mapState.
  - apply dematerializes_notify_unless. case_match.
    + apply (dematerializes_modifyEdge g a (fun e => removeIdentifierCompletely e x)).
      intros e. apply sameShape_removeIdentifierCompletely.
    + apply dematerializes_modifyEdge. intros e. apply sameShape_mapState.
Qed.

Lemma notifyInverseOfDematerialization_dematerializes (g g' : Graph)
    (inverseIdentifier identifier : StableRecordIdentifier) (inverseKey : string)
    (silenceNotifications : bool) :
  notifyInverseOfDematerialization g inverseIdentifier inverseKey identifier
    silenceNotifications = Ok g' ->
  dematerializes g g'.
Proof.
  unfold notifyInverseOfDematerialization.
  destruct (has g inverseIdentifier inverseKey) eqn:Hhas; simpl;
    [|intros [= <-]; apply dematerializes_refl].
  intros Hrun. apply bind_Ok in Hrun as ([a g1] & Hget & Hrest).
  apply get_of_has in Hget as [-> _]; [|done].
  destruct (heap g !! a) as [[r|c|i]|]; try discriminate.
  - case_match; injection Hrest as <-;
      [apply removeDematerializedInverse_dematerializes | apply dematerializes_refl].
  - injection Hrest as <-. apply removeDematerializedInverse_dematerializes.
Qed.

Lemma removeCompletelyFromInverse_dematerializes (g g' : Graph) (relationship : Address) :
  removeCompletelyFromInverse g relationship = Ok g' -> dematerializes g g'.
Proof.
  unfold removeCompletelyFromInverse.
  destruct (heap g !! relationship) as [rel|]; [|discriminate].
  intros Hrun. apply bind_Ok in Hrun as (g1 & Hloop & Hrest).
  assert (dematerializes g g1) as Hd1.
  { revert Hloop. unfold forAllRelatedIdentifiers. apply dematerializes_forEach.
    intros g2 x g3. destruct (has g2 x (inverseKey (edgeDefinition rel))) eqn:Hhas;
      [|intros [= <-]; apply dematerializes_refl].
    intros Hstep. apply bind_Ok in Hstep as ([b g4] & Hget & [= <-]).
    apply get_of_has in Hget as [-> _]; [|done].
    apply (dematerializes_modifyEdge g2 b
             (fun e => removeIdentifierCompletely e (edgeIdentifier rel))).
    intros e. apply sameShape_removeIdentifierCompletely. }
  eapply dematerializes_trans; [exact Hd1|].
  destruct rel as [r|c|i]; simpl in Hrest.
  - injection Hrest as <-.
    eapply dematerializes_trans; [|apply dematerializes_modifyEdge; by intros [| |]].
    destruct (isAsync (ResourceEdge.definition r)); simpl; [apply dematerializes_refl|].
    apply dematerializes_modifyEdge, sameShape_clearRelationship.
  - destruct (isAsync (CollectionEdge.definition c)); simpl in Hrest;
      injection Hrest as <-; [apply dematerializes_refl|].
    eapply dematerializes_trans; [|apply dematerializes_notifyChange].
    apply dematerializes_modifyEdge, sameShape_clearRelationship.
  - injection Hrest as <-. apply dematerializes_modifyEdge. by intros [| |].
Qed.

Lemma destroyRelationship_dematerializes (g g' : Graph) (rel : Address)
    (silenceNotifications : bool) :
  destroyRelationship g rel silenceNotifications = Ok g' -> dematerializes g g'.
Proof.
  unfold destroyRelationship.
  destruct (heap g !! rel) as [edge|] eqn:He; [|discriminate].
  assert (∀ g1,
            (if negb (inverseIsImplicit (edgeDefinition edge))
             then notifyInverses edge silenceNotifications g
             else Ok g) = Ok g1 -> dematerializes g g1) as Hloop.
  { intros g1. destruct (inverseIsImplicit (edgeDefinition edge)); simpl;
      [intros [= <-]; apply dematerializes_refl|].
    unfold notifyInverses, forAllRelatedIdentifiers. apply dematerializes_forEach.
    intros g2 x g3. apply notifyInverseOfDematerialization_dematerializes. }
  assert (∀ g1 g2,
            dematerializes g g1 ->
            (if negb (inverseIsImplicit (edgeDefinition edge))
                && negb (inverseIsAsync (edgeDefinition edge))
             then
               let g := modifyEdge g1 rel (mapState (fun s => set_isStale s true)) in
               let g := modifyEdge g rel clearRelationship in
               if negb (isAsync (edgeDefinition edge)) && negb silenceNotifications
               then Ok (notifyChange g (edgeIdentifier edge) (key (edgeDefinition edge)))
               else Ok g
             else Ok g1) = Ok g2 -> dematerializes g g2) as Hown.
  { intros g1 g2 Hd1.
    destruct (negb (inverseIsImplicit (edgeDefinition edge))
              && negb (inverseIsAsync (edgeDefinition edge))); [|intros [= <-]; done].
    simpl.
    assert (dematerializes g1
              (modifyEdge (modifyEdge g1 rel (mapState (fun s => set_isStale s true)))
                 rel clearRelationship)) as Hclear.
    { eapply dematerializes_trans; apply dematerializes_modifyEdge;
        eauto using sameShape_mapState, sameShape_clearRelationship. }
    destruct (negb (isAsync (edgeDefinition edge)) && negb silenceNotifications);
      intros [= <-]; eauto using dematerializes_trans, dematerializes_notifyChange. }
  destruct edge as [r|c|i].
  - intros Hrun. apply bind_Ok in Hrun as (g1 & H1 & H2). eauto.
  - intros Hrun. apply bind_Ok in Hrun as (g1 & H1 & H2). eauto.
  - clear Hloop Hown.
    destruct (isReleasable g (ImplicitEdge.identifier i));
      [apply removeCompletelyFromInverse_dematerializes|].
    intros [= <-]. apply dematerializes_refl.
Qed.

End Frames.

(** ** [unload], [remove] and the [deleteRecord] operation *)

Section Teardown.
Context {env : Collaborators}.

Lemma dematerializesNode_refl (x : StableRecordIdentifier) (g : Graph) :
  dematerializesNode x g g.
Proof. split; [done|]. split; [done | apply mutatesEdgesOnly_refl]. Qed.

Lemma dematerializesNode_trans (x : StableRecordIdentifier) (g1 g2 g3 : Graph) :
  dematerializesNode x g1 g2 -> dematerializesNode x g2 g3 -> dematerializesNode x g1 g3.
Proof.
  intros (Ho & Hx & Hm) (Ho' & Hx' & Hm'). split; [|split].
  - intros y Hy. rewrite Ho', Ho by done. done.
  - by rewrite Hx', Hx.
  - eauto using mutatesEdgesOnly_trans.
Qed.

Lemma dematerializes_node (x : StableRecordIdentifier) (g g' : Graph) :
  dematerializes g g' -> dematerializesNode x g g'.
Proof. intros [Hi Hm]. split; [|split]; [by rewrite Hi | by rewrite Hi | done]. Qed.

Lemma dematerializesNode_setEdgeOf (x : StableRecordIdentifier) (g : Graph) (k : string)
    (v : option Address) :
  dematerializesNode x g (setEdgeOf g x k v).
Proof.
  split; [|split].
  - intros y Hy. unfold setEdgeOf; simpl. by rewrite lookup_alter_ne.
  - unfold setEdgeOf; simpl. rewrite lookup_alter_eq.
    destruct (identifiers g !! x); simpl; split; intros [? ?]; eauto; done.
  - split; [done|]. split; [by apply keepsEdges_heap|]. split; [same_bookkeeping | no_events].
Qed.

Lemma dematerializesNode_forEach {A} (x : StableRecordIdentifier)
    (body : Graph -> A -> Res Graph) (xs : list A) :
  (∀ g k g', body g k = Ok g' -> dematerializesNode x g g') ->
  ∀ g g', forEach body xs g = Ok g' -> dematerializesNode x g g'.
Proof.
  intros Hbody g g'. apply (forEach_invariant (dematerializesNode x g)).
  - intros g1 k g2 Hd Hstep. eauto using dematerializesNode_trans.
  - apply dematerializesNode_refl.
Qed.

Lemma implicitAt_stable (g g' : Graph) (a : Address) :
  mutatesEdgesOnly g g' -> implicitAt g' a = implicitAt g a.
Proof.
  intros (Hlen & Hkeep & _). unfold implicitAt.
  destruct (heap g !! a) as [e|] eqn:He.
  - destruct (Hkeep a e He) as (e' & -> & _ & _ & Hone & Hmany).
    destruct e, e'; try discriminate; done.
  - apply lookup_ge_None in He. rewrite <- Hlen in He.
    apply lookup_ge_None in He. by rewrite He.
Qed.

Lemma dropImplicit_stable (g g' : Graph) (o : option Address) :
  mutatesEdgesOnly g g' -> dropImplicit g' o = dropImplicit g o.
Proof.
  intros Hm. destruct o as [a|]; simpl; [|done]. by rewrite (implicitAt_stable g g').
Qed.

Lemma dropImplicit_idem (g : Graph) (o : option Address) :
  dropImplicit g (dropImplicit g o) = dropImplicit g o.
Proof.
  destruct o as [a|]; simpl; [|done].
  destruct (implicitAt g a) eqn:Hi; simpl; [done|]. by rewrite Hi.
Qed.

(** One turn of the loop of [unload]. *)
Lemma unload_key_effect (x : StableRecordIdentifier) (silenceNotifications : bool)
    (g g' : Graph) (k : string) :
  unload_key x silenceNotifications g k = Ok g' ->
  dematerializesNode x g g'
  ∧ ∀ k', registered g' x k'
          = if decide (k = k') then dropImplicit g (registered g x k')
            else registered g x k'.
Proof.
  unfold unload_key. fold (registered g x k).
  destruct (registered g x k) as [rel|] eqn:Hreg.
  - intros Hrun. apply bind_Ok in Hrun as (g1 & Hdestroy & Hrest).
    apply destroyRelationship_dematerializes in Hdestroy as Hd.
    destruct Hd as [Hids Hm].
    assert (∀ k', registered g1 x k' = registered g x k') as Hsame
      by (intros k'; unfold registered; by rewrite Hids).
    pose proof (implicitAt_stable g g1 rel Hm) as Himpl. unfold implicitAt in Himpl.
    assert (is_Some (identifiers g1 !! x)) as [n Hn].
    { rewrite Hids. unfold registered in Hreg.
      destruct (identifiers g !! x); [eauto | discriminate]. }
    destruct (heap g1 !! rel) as [[r|c|i]|] eqn:H1; injection Hrest as <-.
    + split; [by apply dematerializes_node|]. intros k'. rewrite Hsame.
      case_decide as Hk; [subst k'|done]. rewrite Hreg. simpl.
      unfold implicitAt. by rewrite <- Himpl.
    + split; [by apply dematerializes_node|]. intros k'. rewrite Hsame.
      case_decide as Hk; [subst k'|done]. rewrite Hreg. simpl.
      unfold implicitAt. by rewrite <- Himpl.
    + split.
      * eapply dematerializesNode_trans; [by apply dematerializes_node|].
        apply dematerializesNode_setEdgeOf.
      * intros k'. rewrite registered_setEdgeOf, Hn.
        destruct (decide (k = k')) as [<-|Hne].
        -- rewrite decide_True by done. rewrite Hreg. simpl.
           unfold implicitAt. by rewrite <- Himpl.
        -- rewrite decide_False by tauto. apply Hsame.
    + split; [by apply dematerializes_node|]. intros k'. rewrite Hsame.
      case_decide as Hk; [subst k'|done]. rewrite Hreg. simpl.
      unfold implicitAt. by rewrite <- Himpl.
  - intros [= <-]. split; [apply dematerializesNode_refl|].
    intros k'. case_decide as Hk; [subst k'|done]. by rewrite Hreg.
Qed.

Lemma unload_keys_effect (x : StableRecordIdentifier) (silenceNotifications : bool)
    (ks : list string) :
  ∀ g g',
    forEach (unload_key x silenceNotifications) ks g = Ok g' ->
    dematerializesNode x g g'
    ∧ ∀ k, registered g' x k
           = if decide (k ∈ ks) then dropImplicit g (registered g x k)
             else registered g x k.
Proof.
  induction ks as [|k0 ks IH]; intros g g'; cbn [forEach].
  - intros [= <-]. split; [apply dematerializesNode_refl|].
    intros k. case_decide as Hin; [by apply elem_of_nil in Hin | done].
  - intros Hrun. apply bind_Ok in Hrun as (g1 & Hstep & Hrest).
    apply unload_key_effect in Hstep as [Hd1 Hreg1].
    apply IH in Hrest as [Hd Hreg].
    split; [eauto using dematerializesNode_trans|].
    intros k. rewrite Hreg, Hreg1.
    destruct Hd1 as (_ & _ & Hm1).
    destruct (decide (k0 = k)) as [<-|Hne].
    + rewrite (decide_True (P := k0 ∈ k0 :: ks)) by apply list_elem_of_here.
      case_decide; [|done]. by rewrite (dropImplicit_stable g g1), dropImplicit_idem.
    + destruct (decide (k ∈ ks)) as [Hin|Hout].
      * rewrite decide_True by (by apply list_elem_of_further).
        by rewrite (dropImplicit_stable g g1).
      * rewrite decide_False; [done|].
        intros Hin. apply elem_of_cons in Hin as [->|Hin]; done.
Qed.

Lemma nodeGet_keys (relationships : Node) (k : string) :
  is_Some (nodeGet relationships k) -> k ∈ keys relationships.
Proof.
  unfold keys. induction relationships as [|[k0 v0] rest IH]; simpl.
  - intros [? [=]].
  - case_decide as Hk.
    + subst k0. intros _. apply list_elem_of_here.
    + intros Hsome. apply list_elem_of_further. by apply IH.
Qed.

(** X5.  [unload] only mutates edge objects in place and emits change
    notifications: it allocates no edge, changes no edge's variant,
    definition or owner, leaves the definition caches, the pending queues,
    the flags and the transaction as they were, does not touch the node of
    any other identity, and keeps the node of the unloaded identity
    registered. *)
Theorem unload_mutates_in_place (g g' : Graph) (x : StableRecordIdentifier)
    (silenceNotifications : bool) :
  unload g x silenceNotifications = Ok g' ->
  length (heap g') = length (heap g)
  ∧ keepsEdges g g'
  ∧ sameBookkeeping g g'
  ∧ onlyNotifies g g'
  ∧ (∀ y, y ≠ x -> identifiers g' !! y = identifiers g !! y)
  ∧ (is_Some (identifiers g' !! x) ↔ is_Some (identifiers g !! x)).
Proof.
  unfold unload. intros Hrun.
  assert (dematerializesNode x g g') as (Hothers & Hnode & Hlen & Hkeep & Hbook & Hev).
  { destruct (identifiers g !! x) as [relationships|].
    - by apply unload_keys_effect in Hrun as [Hd _].
    - injection Hrun as <-. apply dematerializesNode_refl. }
  done.
Qed.

(** X6.  After [unload(X)], every field of X whose edge is implicit reads as
    not materialized, and every other field of X is still registered with
    the very same edge object. *)
Theorem unload_drops_implicit_edges (g g' : Graph) (x : StableRecordIdentifier)
    (silenceNotifications : bool) :
  unload g x silenceNotifications = Ok g' ->
  ∀ k, registered g' x k = dropImplicit g (registered g x k).
Proof.
  unfold unload. intros Hrun k.
  destruct (identifiers g !! x) as [relationships|] eqn:Hn.
  - apply unload_keys_effect in Hrun as [_ Hreg]. rewrite Hreg.
    case_decide as Hin; [done|].
    destruct (registered g x k) as [a|] eqn:Hreg0; [|done].
    destruct Hin. apply nodeGet_keys. unfold registered in Hreg0.
    rewrite Hn in Hreg0. simpl in Hreg0. rewrite Hreg0. eauto.
  - injection Hrun as <-. unfold registered. by rewrite Hn.
Qed.

Lemma unload_dematerializesNode (g g' : Graph) (x : StableRecordIdentifier)
    (silenceNotifications : bool) :
  unload g x silenceNotifications = Ok g' -> dematerializesNode x g g'.
Proof.
  unfold unload. destruct (identifiers g !! x) as [relationships|].
  - intros Hrun. by apply unload_keys_effect in Hrun as [Hd _].
  - intros [= <-]. apply dematerializesNode_refl.
Qed.

(** X7.  [remove(X)] only mutates edge objects in place and notifies: no
    edge is allocated or changes shape, the caches, queues, flags and
    transaction are as before, [_removing] is null again, the nodes of all
    other identities are untouched, and X is releasable afterwards. *)
Theorem remove_effect (g g' : Graph) (x : StableRecordIdentifier) :
  remove g x = Ok g' ->
  length (heap g') = length (heap g)
  ∧ keepsEdges g g'
  ∧ sameBookkeeping g g'
  ∧ onlyNotifies g g'
  ∧ (∀ y, y ≠ x -> identifiers g' !! y = identifiers g !! y)
  ∧ isReleasable g' x = true.
Proof.
  unfold remove. destruct (_removing g) eqn:Hrem; [discriminate|].
  intros Hrun. apply bind_Ok in Hrun as (g1 & Hunload & [= <-]).
  apply unload_dematerializesNode in Hunload
    as (Hothers & _ & Hlen & Hkeep & Hbook & Hev).
  split; [exact Hlen|]. split; [exact Hkeep|]. split; [|split; [exact Hev|split]].
  - unfold sameBookkeeping in *. simpl in *.
    destruct Hbook as (?&?&?&?&?&?&?&?&?&?). repeat split; first [done | congruence].
  - intros y Hy. simpl. rewrite lookup_delete_ne by done. by apply Hothers.
  - unfold isReleasable. simpl. by rewrite lookup_delete_eq.
Qed.

(** X8.  [remove] of an identity that has no node, while no removal is in
    progress, returns the graph exactly as it was. *)
Theorem remove_unregistered (g : Graph) (x : StableRecordIdentifier) :
  identifiers g !! x = None -> _removing g = None -> remove g x = Ok g.
Proof.
  intros Hnone Hrem. unfold remove, unload. rewrite Hrem. simpl. rewrite Hnone. simpl.
  f_equal. destruct g; simpl in *. subst. unfold set_removing, set_identifiers; simpl.
  by rewrite delete_id.
Qed.

Lemma update_deleteRecord_key_effect (x : StableRecordIdentifier) (g g' : Graph)
    (k : string) :
  update_deleteRecord_key x g k = Ok g' -> dematerializesNode x g g'.
Proof.
  unfold update_deleteRecord_key.
  destruct (identifiers g !! x ≫= _) as [rel|]; [|intros [= <-]; apply dematerializesNode_refl].
  intros Hrun. apply removeCompletelyFromInverse_dematerializes in Hrun.
  eauto using dematerializesNode_trans, dematerializesNode_setEdgeOf, dematerializes_node.
Qed.

(** X9.  The remote [deleteRecord] operation: for an identity without a node
    it returns the graph unchanged; otherwise, when it returns, the node of
    the deleted identity has left the registry, the nodes of all other
    identities are untouched, and the rest of the graph was only mutated in
    place (no allocation, no definition resolved, queues and flags as
    before, only notifications emitted). *)
Theorem update_deleteRecord_effect (g : Graph) (o : Operation) :
  op o = op_deleteRecord ->
  (identifiers g !! record o = None -> update g o true = Ok g)
  ∧ (∀ g', update g o true = Ok g' ->
       identifiers g' !! record o = None
       ∧ (∀ y, y ≠ record o -> identifiers g' !! y = identifiers g !! y)
       ∧ mutatesEdgesOnly g g').
Proof.
  intros Hop. unfold update. rewrite Hop. simpl. split.
  - by intros ->.
  - intros g'. destruct (identifiers g !! record o) as [relationships|] eqn:Hn.
    + intros Hrun. apply bind_Ok in Hrun as (g1 & Hloop & [= <-]).
      apply (dematerializesNode_forEach (record o)) in Hloop
        as (Hothers & _ & Hm); [|intros ? ? ?; apply update_deleteRecord_key_effect].
      simpl. split; [apply lookup_delete_eq|]. split.
      * intros y Hy. rewrite lookup_delete_ne by done. by apply Hothers.
      * destruct Hm as (Hlen & Hkeep & Hbook & Hev).
        split; [exact Hlen|]. split; [exact Hkeep|]. split; [exact Hbook|exact Hev].
    + intros [= <-]. split; [done|]. split; [done | apply mutatesEdgesOnly_refl].
Qed.

Lemma update_mode_guard (g : Graph) (o : Operation) :
  (op o = op_updateRelationship ∨ op o = op_deleteRecord ->
   ∃ msg, update g o false = Err msg)
  ∧ (op o = op_addToRelatedRecords ∨ op o = op_removeFromRelatedRecords ->
     ∃ msg, update g o true = Err msg)
  ∧ (op o = op_unknown -> ∀ isRemote, ∃ msg, update g o isRemote = Err msg).
Proof.
  unfold update. split; [|split].
  - intros [Hop|Hop]; rewrite Hop; simpl; [|eauto].
    destruct (get g (record o) (field o)) as [[a g1]|msg]; simpl; [|eauto].
    destruct (heap g1 !! a) as [[]|]; simpl; eauto.
  - intros [Hop|Hop]; rewrite Hop; simpl;
      (destruct (get g (record o) (field o)) as [[a g1]|msg]; simpl; [|eauto]);
      destruct (heap g1 !! a) as [[]|]; simpl; eauto.
  - intros Hop isRemote. rewrite Hop; simpl.
    destruct (get g (record o) (field o)) as [[a g1]|msg]; simpl; [|eauto].
    destruct (heap g1 !! a) as [[]|]; simpl; eauto.
Qed.

(** X10.  [update] rejects an operation applied in the wrong mode:
    [updateRelationship] and [deleteRecord] raise in local mode,
    [addToRelatedRecords] and [removeFromRelatedRecords] raise in remote
    mode, and an operation with an unknown name raises in either mode. *)
Theorem update_rejects_wrong_mode (g : Graph) (o : Operation) :
  (op o = op_updateRelationship ∨ op o = op_deleteRecord ->
   ∃ msg, update g o false = Err msg)
  ∧ (op o = op_addToRelatedRecords ∨ op o = op_removeFromRelatedRecords ->
     ∃ msg, update g o true = Err msg)
  ∧ (op o = op_unknown -> ∀ isRemote, ∃ msg, update g o isRemote = Err msg).
Proof. exact (update_mode_guard g o). Qed.

(** X11.  [update] never reaches the operation processor for a field whose
    materialized edge is implicit: every operation other than
    [deleteRecord] and [mergeIdentifiers] raises, in either mode. *)
Theorem update_rejects_implicit_edge (g : Graph) (o : Operation) (a : Address)
    (i : ImplicitEdge.t) (isRemote : bool) :
  op o ≠ op_deleteRecord -> op o ≠ op_mergeIdentifiers ->
  registered g (record o) (field o) = Some a ->
  heap g !! a = Some (Implicit i) ->
  ∃ msg, update g o isRemote = Err msg.
Proof.
  intros Hnd Hnm Hreg Ha. unfold update.
  rewrite (bool_decide_eq_false_2 (op o = op_deleteRecord)) by done.
  rewrite (bool_decide_eq_false_2 (op o = op_mergeIdentifiers)) by done. simpl.
  destruct (decide (field o = "")) as [Hname|Hname].
  - rewrite Hname. simpl. eauto.
  - rewrite (get_hit g (record o) (field o) a) by done. simpl. rewrite Ha. simpl. eauto.
Qed.

End Teardown.

(** ** Telling the inverse side *)

Section Inverses.
Context {env : Collaborators}.

(** X12.  [notifyInverseOfDematerialization] does nothing when the inverse
    edge was never materialized, and nothing when a to-one inverse already
    points at another identity; it raises when the inverse edge is implicit;
    in the remaining cases it is [removeDematerializedInverse] on the inverse
    edge. *)
Theorem notifyInverseOfDematerialization_cases (g : Graph)
    (inverseIdentifier identifier : StableRecordIdentifier) (inverseKey : string)
    (silenceNotifications : bool) :
  (has g inverseIdentifier inverseKey = false ->
   notifyInverseOfDematerialization g inverseIdentifier inverseKey identifier
     silenceNotifications = Ok g)
  ∧ (∀ a r other,
       inverseKey ≠ "" ->
       registered g inverseIdentifier inverseKey = Some a ->
       heap g !! a = Some (Resource r) ->
       ResourceEdge.localState r = Some other -> other ≠ identifier ->
       notifyInverseOfDematerialization g inverseIdentifier inverseKey identifier
         silenceNotifications = Ok g)
  ∧ (∀ a i,
       registered g inverseIdentifier inverseKey = Some a ->
       heap g !! a = Some (Implicit i) ->
       ∃ msg, notifyInverseOfDematerialization g inverseIdentifier inverseKey identifier
                silenceNotifications = Err msg)
  ∧ (∀ a e,
       inverseKey ≠ "" ->
       registered g inverseIdentifier inverseKey = Some a ->
       heap g !! a = Some e -> isImplicitEdge e = false ->
       (∀ r, e = Resource r ->
             ResourceEdge.localState r = None
             ∨ ResourceEdge.localState r = Some identifier) ->
       notifyInverseOfDematerialization g inverseIdentifier inverseKey identifier
         silenceNotifications
       = Ok (removeDematerializedInverse g a identifier silenceNotifications)).
Proof.
  unfold notifyInverseOfDematerialization. split; [by intros ->|].
  assert (∀ a, registered g inverseIdentifier inverseKey = Some a ->
               has g inverseIdentifier inverseKey = true) as Hhas
    by (intros a Ha; apply has_registered; eauto).
  split; [|split].
  - intros a r other Hname Hreg Ha Hlocal Hother.
    rewrite (Hhas a Hreg), (get_hit g inverseIdentifier inverseKey a) by done.
    simpl. rewrite Ha, Hlocal. simpl.
    rewrite bool_decide_eq_false_2; [done|]. intros [= ->]. done.
  - intros a i Hreg Ha. rewrite (Hhas a Hreg). simpl.
    destruct (decide (inverseKey = "")) as [->|Hname]; [simpl; eauto|].
    rewrite (get_hit g inverseIdentifier inverseKey a) by done. simpl. rewrite Ha. eauto.
  - intros a e Hname Hreg Ha Himpl Hlocal.
    rewrite (Hhas a Hreg), (get_hit g inverseIdentifier inverseKey a) by done.
    simpl. rewrite Ha. destruct e as [r|c|i]; [| done | discriminate].
    destruct (Hlocal r eq_refl) as [Hl|Hl]; rewrite Hl; simpl; [done|].
    by rewrite bool_decide_eq_true_2.
Qed.


(** X14.  When [removeCompletelyFromInverse] returns, the edge it was given
    is still the same object of the same shape, and: a to-one edge has a
    null [localState], and a null [remoteState] as well when it is
    synchronous; a synchronous to-many edge holds no identity in either
    layer or membership set; an implicit edge has no members. *)
Theorem removeCompletelyFromInverse_own_edge (g g' : Graph) (relationship : Address)
    (rel : GraphEdge) :
  heap g !! relationship = Some rel ->
  removeCompletelyFromInverse g relationship = Ok g' ->
  ∃ rel',
    heap g' !! relationship = Some rel' ∧ sameShape rel rel'
    ∧ match rel' with
      | Resource r' =>
          ResourceEdge.localState r' = None
          ∧ (isAsync (edgeDefinition rel) = false -> ResourceEdge.remoteState r' = None)
      | Collection _ => isAsync (edgeDefinition rel) = false -> referenced rel' = []
      | Implicit _ => referenced rel' = []
      end.
Proof.
  intros Ha. unfold removeCompletelyFromInverse. rewrite Ha.
  intros Hrun. apply bind_Ok in Hrun as (g1 & Hloop & Hrest).
  assert (dematerializes g g1) as (_ & _ & Hkeep & _).
  { revert Hloop. unfold forAllRelatedIdentifiers. apply dematerializes_forEach.
    intros g2 y g3. destruct (has g2 y (inverseKey (edgeDefinition rel))) eqn:Hhas;
      [|intros [= <-]; apply dematerializes_refl].
    intros Hstep. apply bind_Ok in Hstep as ([b g4] & Hget & [= <-]).
    apply get_of_has in Hget as [-> _]; [|done].
    apply (dematerializes_modifyEdge g2 b
             (fun e => removeIdentifierCompletely e (edgeIdentifier rel))).
    intros e. apply sameShape_removeIdentifierCompletely. }
  destruct (Hkeep relationship rel Ha) as (e1 & He1 & Hshape).
  pose proof Hshape as (_ & _ & Hone & Hmany).
  destruct rel as [r|c|i]; simpl in Hrest.
  - destruct e1 as [r1|c1|i1]; try discriminate. injection Hrest as <-.
    destruct (isAsync (ResourceEdge.definition r)) eqn:Hasync; simpl.
    + eexists. rewrite list_lookup_alter_eq, He1. simpl. split; [done|].
      split; [by destruct Hshape as (?&?&?&?)|]. simpl. split; [done | congruence].
    + eexists. rewrite !list_lookup_alter_eq, He1. simpl. split; [done|].
      split; [by destruct Hshape as (?&?&?&?)|]. simpl. done.
  - destruct e1 as [r1|c1|i1]; try discriminate.
    destruct (isAsync (CollectionEdge.definition c)) eqn:Hasync; simpl in Hrest;
      injection Hrest as <-.
    + exists (Collection c1). split; [done|]. split; [done|]. simpl. congruence.
    + eexists. simpl. rewrite list_lookup_alter_eq, He1. simpl. split; [done|].
      split; [by destruct Hshape as (?&?&?&?)|]. done.
  - destruct e1 as [r1|c1|i1]; try discriminate. injection Hrest as <-.
    eexists. simpl. rewrite list_lookup_alter_eq, He1. simpl. split; [done|].
    split; [by destruct Hshape as (?&?&?&?)|]. done.
Qed.

End Inverses.

(** ** More on unloading *)

Section Retention.
Context {env : Collaborators}.

Lemma forEach_fixed {A} (body : Graph -> A -> Res Graph) (xs : list A) (g : Graph) :
  (∀ x, x ∈ xs -> body g x = Ok g) -> forEach body xs g = Ok g.
Proof.
  induction xs as [|x xs IH]; intros Hfix; simpl; [done|].
  rewrite Hfix by apply list_elem_of_here. simpl. apply IH.
  intros y Hy. apply Hfix. by apply list_elem_of_further.
Qed.

(** X15.  When every materialized edge of X is a to-one or to-many edge
    whose inverse is implicit, [unload(X)] returns the graph exactly as it
    was: the edges keep their state and the implicit inverses are not
    told. *)
Theorem unload_keeps_edges_with_implicit_inverse (g : Graph) (x : StableRecordIdentifier)
    (silenceNotifications : bool) :
  (∀ k a, registered g x k = Some a ->
          ∃ e, heap g !! a = Some e ∧ isImplicitEdge e = false
               ∧ inverseIsImplicit (edgeDefinition e) = true) ->
  unload g x silenceNotifications = Ok g.
Proof.
  intros Hall. unfold unload. destruct (identifiers g !! x) as [relationships|] eqn:Hn; [|done].
  apply forEach_fixed. intros k _. unfold unload_key. fold (registered g x k).
  destruct (registered g x k) as [a|] eqn:Hreg; [|done].
  destruct (Hall k a Hreg) as (e & He & Himpl & Hinv).
  unfold destroyRelationship. rewrite He.
  destruct e as [r|c|i]; [| |discriminate]; simpl in Hinv; simpl; rewrite Hinv; simpl;
    by rewrite He.
Qed.

Lemma definitionAt_stable (g g' : Graph) (a : Address) :
  mutatesEdgesOnly g g' ->
  edgeDefinition <$> heap g' !! a = edgeDefinition <$> heap g !! a.
Proof.
  intros (Hlen & Hkeep & _). destruct (heap g !! a) as [e|] eqn:He.
  - destruct (Hkeep a e He) as (e' & -> & Hdef & _). simpl. by rewrite Hdef.
  - apply lookup_ge_None in He. rewrite <- Hlen in He.
    apply lookup_ge_None in He. by rewrite He.
Qed.

Lemma isReleasable_keys_stable (g g' : Graph) (y : StableRecordIdentifier)
    (relationships : Node) (ks : list string) :
  mutatesEdgesOnly g g' ->
  isReleasable_keys g' y relationships ks = isReleasable_keys g y relationships ks.
Proof.
  intros Hm. induction ks as [|k ks IH]; simpl; [done|].
  destruct (nodeGet relationships k) as [a|]; simpl; [|done].
  pose proof (definitionAt_stable g g' a Hm) as Hdef.
  destruct (heap g' !! a) as [e'|], (heap g !! a) as [e|]; simpl in Hdef; try discriminate.
  - injection Hdef as ->. by rewrite IH.
  - done.
Qed.

Lemma isReleasable_keys_heap (g g' : Graph) (y : StableRecordIdentifier)
    (relationships : Node) (ks : list string) :
  heap g' = heap g ->
  isReleasable_keys g' y relationships ks = isReleasable_keys g y relationships ks.
Proof.
  intros Hheap. induction ks as [|k ks IH]; simpl; [done|]. by rewrite Hheap, IH.
Qed.

Lemma isReleasable_stable (x y : StableRecordIdentifier) (g g' : Graph) :
  y ≠ x -> dematerializesNode x g g' -> isReleasable g' y = isReleasable g y.
Proof.
  intros Hy (Hothers & _ & Hm). unfold isReleasable. rewrite (Hothers y Hy).
  destruct (identifiers g !! y) as [relationships|]; [|done].
  by apply isReleasable_keys_stable.
Qed.

(** X16.  Unloading or removing one identity, or applying [deleteRecord] to
    it, never changes whether another identity is releasable. *)
Theorem isReleasable_of_others_unchanged (g g' : Graph) (x y : StableRecordIdentifier) :
  y ≠ x ->
  (∀ silenceNotifications,
     unload g x silenceNotifications = Ok g' -> isReleasable g' y = isReleasable g y)
  ∧ (remove g x = Ok g' -> isReleasable g' y = isReleasable g y)
  ∧ (∀ o, op o = op_deleteRecord -> record o = x ->
          update g o true = Ok g' -> isReleasable g' y = isReleasable g y).
Proof.
  intros Hy. split; [|split].
  - intros s Hrun. apply unload_dematerializesNode in Hrun.
    by apply (isReleasable_stable x).
  - unfold remove. destruct (_removing g); [discriminate|].
    intros Hrun. apply bind_Ok in Hrun as (g1 & Hunload & [= <-]).
    apply unload_dematerializesNode in Hunload as (Hothers & _ & Hm).
    unfold isReleasable. simpl. rewrite lookup_delete_ne by done.
    rewrite (Hothers y Hy). simpl.
    destruct (identifiers g !! y) as [relationships|]; [|done].
    rewrite (isReleasable_keys_heap g1) by done.
    rewrite (isReleasable_keys_stable (set_removing g (Some x)) g1) by done.
    by apply isReleasable_keys_heap.
  - intros o Hop <-. unfold update. rewrite Hop. simpl.
    destruct (identifiers g !! record o) as [relationships|] eqn:Hn; [|by intros [= <-]].
    intros Hrun. apply bind_Ok in Hrun as (g1 & Hloop & [= <-]).
    apply (dematerializesNode_forEach (record o)) in Hloop
      as (Hothers & _ & Hm); [|intros ? ? ?; apply update_deleteRecord_key_effect].
    unfold isReleasable. simpl. rewrite lookup_delete_ne by done.
    rewrite (Hothers y Hy).
    destruct (identifiers g !! y) as [relationships'|]; [|done].
    rewrite (isReleasable_keys_heap g1) by done.
    by apply isReleasable_keys_stable.
Qed.

End Retention.

(** ** The local queue, the transaction, and the caches *)

Section Bookkeeping.
Context {env : Collaborators}.

Lemma NoDup_setAdd (a : Address) (s : list Address) : NoDup s -> NoDup (setAdd a s).
Proof.
  intros Hs. unfold setAdd. case_decide as Hin; [done|].
  apply NoDup_app. split; [done|]. split; [|apply NoDup_singleton].
  intros b Hb Hb'. apply list_elem_of_singleton in Hb'. by subst.
Qed.

Lemma scheduleLocalSync_effect (g g' : Graph) (relationship : Address) :
  _scheduleLocalSync g relationship = Ok g' ->
  _updatedRelationships g' = setAdd relationship (_updatedRelationships g)
  ∧ _willSyncLocal g' = true
  ∧ requests g' "sync" = requests g "sync" + (if _willSyncLocal g then 0 else 1)
  ∧ heap g' = heap g ∧ identifiers g' = identifiers g.
Proof.
  unfold _scheduleLocalSync. simpl. destruct (_willSyncLocal g) eqn:Hflag; simpl.
  - intros [= <-]. simpl. rewrite Nat.add_0_r. done.
  - unfold _schedule. simpl. destruct (isDestroyed g); [discriminate|].
    intros [= <-]. simpl. unfold requests. simpl. by rewrite requestsIn_app.
Qed.

Lemma scheduleLocalSyncAll_effect (rels : list Address) :
  ∀ g g', scheduleLocalSyncAll g rels = Ok g' ->
    _updatedRelationships g' = setAddAll rels (_updatedRelationships g)
    ∧ _willSyncLocal g' = match rels with [] => _willSyncLocal g | _ => true end
    ∧ requests g' "sync"
      = requests g "sync"
        + (if _willSyncLocal g then 0 else match rels with [] => 0 | _ => 1 end)
    ∧ heap g' = heap g ∧ identifiers g' = identifiers g.
Proof.
  unfold scheduleLocalSyncAll, setAddAll.
  induction rels as [|a rels IH]; intros g g'; simpl.
  - intros [= <-]. destruct (_willSyncLocal g); rewrite Nat.add_0_r; done.
  - intros Hrun. apply bind_Ok in Hrun as (g1 & Hstep & Hrest).
    apply scheduleLocalSync_effect in Hstep as (Hset & Hflag & Hreq & Hheap & Hids).
    apply IH in Hrest as (Hset' & Hflag' & Hreq' & Hheap' & Hids').
    rewrite Hset', Hset, Hreq', Hreq, Hflag', Hflag, Hheap', Hheap, Hids', Hids.
    split; [done|]. split; [by destruct rels|]. split; [lia | done].
Qed.

Lemma setAddAll_spec (rels : list Address) :
  ∀ s, (NoDup s -> NoDup (setAddAll rels s))
       ∧ ∀ a, a ∈ setAddAll rels s ↔ a ∈ s ∨ a ∈ rels.
Proof.
  unfold setAddAll. induction rels as [|r rels IH]; intros s; simpl.
  - split; [done|]. intros a. rewrite elem_of_nil. tauto.
  - destruct (IH (setAdd r s)) as [Hnd Hin]. split.
    + intros Hs. by apply Hnd, NoDup_setAdd.
    + intros a. rewrite Hin, elem_of_setAdd, elem_of_cons. tauto.
Qed.

(** X17.  A batch of [_scheduleLocalSync] calls that starts with no local
    flush pending requests exactly one flush on the "sync" queue; the
    pending set holds exactly the scheduled edges, each once; no edge and no
    node is touched.  The local flush that follows lowers the flag, empties
    the set and hands each pending edge once to [syncRemoteToLocal]. *)
Theorem scheduleLocalSync_coalesces (g g' : Graph) (rels : list Address) :
  _willSyncLocal g = false ->
  _updatedRelationships g = [] ->
  rels ≠ [] ->
  scheduleLocalSyncAll g rels = Ok g' ->
  requests g' "sync" = requests g "sync" + 1
  ∧ NoDup (_updatedRelationships g')
  ∧ (∀ a, a ∈ _updatedRelationships g' ↔ a ∈ rels)
  ∧ heap g' = heap g ∧ identifiers g' = identifiers g
  ∧ _willSyncLocal (drainedLocal g') = false
  ∧ _updatedRelationships (drainedLocal g') = []
  ∧ _flushLocalQueue g'
    = forEach (fun g rel => syncRemoteToLocal g rel) (_updatedRelationships g')
        (drainedLocal g').
Proof.
  intros Hflag Hempty Hne Hrun.
  apply scheduleLocalSyncAll_effect in Hrun as (Hset & Hflag' & Hreq & Hheap & Hids).
  destruct (setAddAll_spec rels (_updatedRelationships g)) as [Hnd Hin].
  rewrite Hflag in Hreq. rewrite Hset.
  split; [by destruct rels|]. split; [apply Hnd; rewrite Hempty; constructor|].
  split; [intros a; rewrite Hin, Hempty, elem_of_nil; tauto|].
  split; [done|]. split; [done|]. split; [done|]. split; [done|].
  unfold _flushLocalQueue. rewrite Hflag'. destruct rels; [done|]. simpl.
  by rewrite Hset.
Qed.

Lemma withoutTransactionRef_map (f : nat -> nat) (e : GraphEdge) :
  withoutTransactionRef (mapTransactionRef f e) = withoutTransactionRef e.
Proof. by destruct e. Qed.

Lemma zeroed_frame (t : list Address) :
  ∀ g,
    let g' := foldl (fun g v => modifyEdge g v (mapTransactionRef (fun _ => 0))) g t in
    identifiers g' = identifiers g ∧ events g' = events g
    ∧ _pushedUpdates g' = _pushedUpdates g ∧ _transaction g' = _transaction g
    ∧ _willSyncRemote g' = _willSyncRemote g
    ∧ ∀ a, withoutTransactionRef <$> heap g' !! a = withoutTransactionRef <$> heap g !! a.
Proof.
  induction t as [|v t IH]; intros g; cbn [foldl]; [done|].
  destruct (IH (modifyEdge g v (mapTransactionRef (fun _ => 0))))
    as (Hids & Hev & Hq & Ht & Hw & Hheap).
  cbv zeta. rewrite Hids, Hev, Hq, Ht, Hw. repeat split; try done.
  intros a. rewrite Hheap. simpl. destruct (decide (v = a)) as [->|Hne].
  - rewrite list_lookup_alter_eq. destruct (heap g !! a); simpl; [|done].
    by rewrite withoutTransactionRef_map.
  - by rewrite list_lookup_alter_ne.
Qed.

(** X18.  [_finalize] changes nothing but [transactionRef] counters and the
    transaction handle: the registry, the queues, the flag and the trace
    are as before, every edge object keeps its state apart from the counter,
    edges outside the transaction keep their counter, and finalizing twice
    is the same as finalizing once. *)
Theorem finalize_touches_counters_only (g : Graph) :
  identifiers (_finalize g) = identifiers g
  ∧ events (_finalize g) = events g
  ∧ _pushedUpdates (_finalize g) = _pushedUpdates g
  ∧ _willSyncRemote (_finalize g) = _willSyncRemote g
  ∧ (∀ a, withoutTransactionRef <$> heap (_finalize g) !! a
          = withoutTransactionRef <$> heap g !! a)
  ∧ (∀ t a, _transaction g = Some t -> a ∉ t ->
            transactionRefAt (_finalize g) a = transactionRefAt g a)
  ∧ _finalize (_finalize g) = _finalize g.
Proof.
  unfold _finalize. destruct (_transaction g) as [t|] eqn:Ht; simpl.
  - destruct (zeroed_frame t g) as (Hids & Hev & Hq & _ & Hw & Hheap).
    split; [exact Hids|]. split; [exact Hev|]. split; [exact Hq|]. split; [exact Hw|].
    split; [exact Hheap|]. split; [|done].
    intros t' a [= <-] Hout.
    change (transactionRefAt
              (foldl (fun g v => modifyEdge g v (mapTransactionRef (fun _ => 0))) g t) a
            = transactionRefAt g a).
    rewrite transactionRefAt_zeroed. by rewrite decide_False.
  - rewrite Ht. repeat split; first [done | discriminate].
Qed.

(** X19.  A definition that resolves to [null] is never served from the
    cache: when [getDefinition] returns [null] it has just invoked
    [upgradeDefinition], the pair still reads as not cached, and every later
    call of [getDefinition] for the pair that returns invokes
    [upgradeDefinition] once more. *)
Theorem getDefinition_null_not_cached (g g1 : Graph) (identifier : StableRecordIdentifier)
    (propertyName : string) :
  getDefinition g identifier propertyName = Ok (None, g1) ->
  cachedMeta g1 (type identifier) propertyName = None
  ∧ resolutions g1 (type identifier) propertyName
    = S (resolutions g (type identifier) propertyName)
  ∧ ∀ meta g2,
      getDefinition g1 identifier propertyName = Ok (meta, g2) ->
      resolutions g2 (type identifier) propertyName
      = S (resolutions g1 (type identifier) propertyName).
Proof.
  assert (∀ g g1 meta,
            getDefinition g identifier propertyName = Ok (meta, g1) ->
            cachedMeta g (type identifier) propertyName = None ->
            cachedMeta g1 (type identifier) propertyName = meta
            ∧ resolutions g1 (type identifier) propertyName
              = S (resolutions g (type identifier) propertyName)) as Hmiss.
  { intros h h1 meta Hrun Hnone.
    apply getDefinition_effect in Hrun as [([m Hm] & _)|(_ & Hev & Hcache)]; [congruence|].
    split; [rewrite Hcache; by rewrite decide_True|].
    unfold resolutions. rewrite Hev, resolutionsIn_app, resolutionsIn_one.
    rewrite decide_True by done. lia. }
  intros Hrun.
  assert (cachedMeta g (type identifier) propertyName = None) as Hnone.
  { apply getDefinition_effect in Hrun as [([m Hm] & _ & Heq)|(Hnone & _)]; [congruence|done]. }
  destruct (Hmiss g g1 None Hrun Hnone) as [Hcache Hcount].
  split; [done|]. split; [done|].
  intros meta g2 Hagain. by destruct (Hmiss g1 g2 meta Hagain Hcache).
Qed.

(** X20.  Pushing a [deleteRecord] or a [replaceRelatedRecord] operation
    never consults the definitions: both caches stay as they were and
    [upgradeDefinition] is not invoked.  Pushing any other operation for a
    field whose cached definition is implicit raises. *)
Theorem push_and_definitions (g : Graph) (o : Operation) :
  (op o = op_deleteRecord ∨ op o = op_replaceRelatedRecord ->
   ∀ g', push g o = Ok g' ->
         _metaCache g' = _metaCache g ∧ _definitionCache g' = _definitionCache g
         ∧ ∀ ty propertyName, resolutions g' ty propertyName = resolutions g ty propertyName)
  ∧ (op o ≠ op_deleteRecord -> op o ≠ op_replaceRelatedRecord ->
     ∀ meta, cachedMeta g (type (record o)) (field o) = Some meta ->
             kind meta = KImplicit ->
             ∃ msg, push g o = Err msg).
Proof.
  split.
  - intros Hop g'. unfold push.
    assert (∀ q,
              (let g1 := set_pushedUpdates g q in
               if negb (_willSyncRemote g1)
               then _schedule (set_willSyncRemote g1 true) "coalesce"
               else Ok g1) = Ok g' ->
              _metaCache g' = _metaCache g ∧ _definitionCache g' = _definitionCache g
              ∧ ∀ ty propertyName,
                  resolutions g' ty propertyName = resolutions g ty propertyName) as Hq.
    { intros q. simpl. destruct (_willSyncRemote g); simpl.
      - by intros [= <-].
      - unfold _schedule. simpl. destruct (isDestroyed g); [discriminate|].
        intros [= <-]. simpl. split; [done|]. split; [done|].
        intros ty propertyName. unfold resolutions. simpl.
        rewrite resolutionsIn_app. unfold resolutionsIn at 2. simpl. lia. }
    destruct Hop as [Hop|Hop]; rewrite Hop; simpl; apply Hq.
  - intros Hnd Hnr meta Hmeta Hkind. unfold push.
    rewrite (getDefinition_hit g (record o) (field o) meta) by done.
    destruct (op o); try done; simpl; rewrite Hkind; simpl; eauto.
Qed.

Lemma polymorphicWith_register (g : Graph) (type1 type2 a b : string) :
  polymorphicWith (registerPolymorphicType g type1 type2) a b
  = if decide ((a = type1 ∧ b = type2) ∨ (a = type2 ∧ b = type1)) then Some true
    else polymorphicWith g a b.
Proof.
  unfold polymorphicWith, registerPolymorphicType; simpl.
  destruct (decide (a = type2)) as [->|Ha2].
  - rewrite lookup_insert_eq; simpl.
    destruct (decide (b = type1)) as [->|Hb1].
    + rewrite lookup_insert_eq. by rewrite decide_True by tauto.
    + rewrite lookup_insert_ne by done.
      destruct (decide (type1 = type2)) as [->|Hne].
      * rewrite lookup_insert_eq; simpl. rewrite lookup_insert.
        destruct (decide (type2 = b)) as [<-|Hb2].
        -- by rewrite decide_True by tauto.
        -- rewrite decide_False by (intros [[_ ->]|[_ ->]]; done).
           destruct (_potentialPolymorphicTypes g !! type2); simpl; [done|].
           by rewrite lookup_empty.
      * rewrite lookup_insert_ne by done.
        rewrite decide_False by (intros [[-> _]|[_ ->]]; done).
        destruct (_potentialPolymorphicTypes g !! type2); simpl; [done|].
        by rewrite lookup_empty.
  - rewrite lookup_insert_ne by done.
    destruct (decide (a = type1)) as [->|Ha1].
    + rewrite lookup_insert_eq; simpl. rewrite lookup_insert.
      destruct (decide (type2 = b)) as [<-|Hb2].
      * by rewrite decide_True by tauto.
      * rewrite decide_False by (intros [[_ ->]|[-> _]]; done).
        destruct (_potentialPolymorphicTypes g !! type1); simpl; [done|].
        by rewrite lookup_empty.
    + rewrite lookup_insert_ne by done.
      by rewrite decide_False by (intros [[-> _]|[-> _]]; done).
Qed.

(** X21.  [registerPolymorphicType(a, b)] records the pair in both
    directions and leaves every other pair as it was; registering the pair
    twice, or in the other order, gives the same table. *)
Theorem registerPolymorphicType_symmetric (g : Graph) (type1 type2 : string) :
  polymorphicWith (registerPolymorphicType g type1 type2) type1 type2 = Some true
  ∧ polymorphicWith (registerPolymorphicType g type1 type2) type2 type1 = Some true
  ∧ (∀ a b, ¬ (a = type1 ∧ b = type2) -> ¬ (a = type2 ∧ b = type1) ->
            polymorphicWith (registerPolymorphicType g type1 type2) a b
            = polymorphicWith g a b)
  ∧ (∀ a b,
       polymorphicWith
         (registerPolymorphicType (registerPolymorphicType g type1 type2) type1 type2) a b
       = polymorphicWith (registerPolymorphicType g type1 type2) a b)
  ∧ (∀ a b,
       polymorphicWith (registerPolymorphicType g type2 type1) a b
       = polymorphicWith (registerPolymorphicType g type1 type2) a b).
Proof.
  split; [|split; [|split; [|split]]].
  - rewrite polymorphicWith_register. by rewrite decide_True by tauto.
  - rewrite polymorphicWith_register. by rewrite decide_True by tauto.
  - intros a b H1 H2. rewrite polymorphicWith_register. by rewrite decide_False by tauto.
  - intros a b. rewrite !polymorphicWith_register. by case_decide.
  - intros a b. rewrite !polymorphicWith_register.
    repeat case_decide; try done; tauto.
Qed.

End Bookkeeping.

(** ** Composition: pushes, flushes and unloads *)

Section Composition.
Context {env : Collaborators}.

Lemma forEach_raises {A} (body : Graph -> A -> Res Graph) (xs : list A) (x : A) :
  x ∈ xs -> (∀ g, ∃ msg, body g x = Err msg) ->
  ∀ g, ∃ msg, forEach body xs g = Err msg.
Proof.
  intros Hin Hraise. induction xs as [|y xs IH]; [by apply elem_of_nil in Hin|].
  intros g. simpl. destruct (body g y) as [g1|msg] eqn:Hy; simpl; [|eauto].
  apply elem_of_cons in Hin as [->|Hin]; [|by apply IH].
  destruct (Hraise g) as [msg Hmsg]. congruence.
Qed.

(** X22.  [push] accepts operations of any name, but a flush applies them in
    remote mode: when a flush is pending and one of the queues holds an
    [addToRelatedRecords], a [removeFromRelatedRecords] or an operation of
    unknown name, [_flushRemoteQueue] raises. *)
Theorem flushRemoteQueue_raises_on_local_operation (g : Graph) (o : Operation) :
  _willSyncRemote g = true ->
  o ∈ (deletions (_pushedUpdates g) ++ hasMany (_pushedUpdates g)
       ++ belongsTo (_pushedUpdates g))%list ->
  op o = op_addToRelatedRecords ∨ op o = op_removeFromRelatedRecords ∨ op o = op_unknown ->
  ∃ msg, _flushRemoteQueue g = Err msg.
Proof.
  intros Hflag Hin Hop. rewrite flushRemoteQueue_order by done.
  destruct (forEach_raises (fun g o => update g o true) _ o Hin) with (g := drained g)
    as [msg Hmsg].
  - intros g1. destruct (update_mode_guard g1 o) as (_ & Hlocal & Hunknown).
    destruct Hop as [Hop|[Hop|Hop]]; eauto.
  - rewrite Hmsg. simpl. eauto.
Qed.

Lemma elem_of_edgesOf (g : Graph) (x : StableRecordIdentifier) (e : GraphEdge) :
  e ∈ edgesOf g x ↔ ∃ k a, registered g x k = Some a ∧ heap g !! a = Some e.
Proof.
  unfold edgesOf, registered. destruct (identifiers g !! x) as [relationships|]; simpl.
  - rewrite list_elem_of_omap. split.
    + intros (k & _ & Hk). destruct (nodeGet relationships k) as [a|] eqn:Ha; [|done].
      simpl in Hk. eauto.
    + intros (k & a & Ha & He). exists k. split.
      * apply nodeGet_keys. rewrite Ha. eauto.
      * rewrite Ha. simpl. done.
  - split; [intros Hin; by apply elem_of_nil in Hin | intros (k & a & [=] & _)].
Qed.

(** X23.  After [unload(X)], implicit edges no longer hold X back: X is not
    releasable exactly when X is not new and one of the to-one or to-many
    edges it had before the unload has an asynchronous inverse. *)
Theorem isReleasable_after_unload (g g' : Graph) (x : StableRecordIdentifier)
    (silenceNotifications : bool) :
  unload g x silenceNotifications = Ok g' ->
  (isReleasable g' x = false ↔
   (∃ e, e ∈ edgesOf g x ∧ isImplicitEdge e = false
         ∧ inverseIsAsync (edgeDefinition e) = true)
   ∧ isNew x = false).
Proof.
  intros Hrun. pose proof (unload_dematerializesNode _ _ _ _ Hrun) as (_ & _ & Hm).
  assert (∀ k, registered g' x k = dropImplicit g (registered g x k)) as Hreg.
  { intros k. unfold unload in Hrun.
    destruct (identifiers g !! x) as [relationships|] eqn:Hn.
    - apply unload_keys_effect in Hrun as [_ Hk]. rewrite Hk.
      case_decide as Hin; [done|].
      destruct (registered g x k) as [a|] eqn:Hreg0; [|done].
      destruct Hin. apply nodeGet_keys. unfold registered in Hreg0.
      rewrite Hn in Hreg0. simpl in Hreg0. rewrite Hreg0. eauto.
    - injection Hrun as <-. unfold registered. by rewrite Hn. }
  rewrite isReleasable_false.
  assert ((∃ e', e' ∈ edgesOf g' x ∧ inverseIsAsync (edgeDefinition e') = true)
          ↔ (∃ e, e ∈ edgesOf g x ∧ isImplicitEdge e = false
                  ∧ inverseIsAsync (edgeDefinition e) = true)) as Hedges; [|tauto].
  split.
  - intros (e' & Hin & Hasync). apply elem_of_edgesOf in Hin as (k & a & Hk & He').
    rewrite Hreg in Hk. destruct (registered g x k) as [a0|] eqn:Hk0; [|done].
    simpl in Hk. destruct (implicitAt g a0) eqn:Himpl; [done|]. injection Hk as <-.
    pose proof (definitionAt_stable g g' a0 Hm) as Hdef. rewrite He' in Hdef.
    unfold implicitAt in Himpl.
    destruct (heap g !! a0) as [e|] eqn:He; [|done]. injection Hdef as Hdef.
    exists e. split; [apply elem_of_edgesOf; eauto|].
    split; [by destruct e | congruence].
  - intros (e & Hin & Himpl & Hasync). apply elem_of_edgesOf in Hin as (k & a & Hk & He).
    pose proof (definitionAt_stable g g' a Hm) as Hdef. rewrite He in Hdef.
    destruct (heap g' !! a) as [e'|] eqn:He'; [|done]. injection Hdef as Hdef.
    exists e'. split; [|congruence].
    apply elem_of_edgesOf. exists k, a. split; [|done].
    rewrite Hreg, Hk. simpl. unfold implicitAt. rewrite He. by destruct e.
Qed.

End Composition.

(** ** The further properties at work on the concrete schema *)

Lemma get_then_has_witness :
  has Demo.materialized Demo.A "editor" = true
  ∧ get (env := Demo.persisted) Demo.materialized Demo.A "editor" = Ok (0, Demo.materialized).
Proof.
  destruct (get_then_has (env := Demo.persisted) newGraph Demo.materialized Demo.A "editor" 0)
    as (Hhas & _ & Hget); [vm_compute; reflexivity|].
  split; [exact Hhas | exact Hget].
Defined.

Lemma get_creates_edge_witness :
  ∃ edge, heap Demo.materialized = [edge] ∧ edgeIdentifier edge = Demo.A
          ∧ variantOf edge = kind (edgeDefinition edge).
Proof.
  destruct (get_creates_edge (env := Demo.persisted) newGraph Demo.materialized Demo.A
              "editor" 0) as (edge & _ & Hheap & Hid & _ & Hkind & _);
    [reflexivity | vm_compute; reflexivity |].
  exists edge. split; [exact Hheap|]. split; [exact Hid | exact Hkind].
Defined.

Lemma get_existing_is_lookup_witness :
  ∃ a, registered Demo.linked Demo.A "owner" = Some a
       ∧ get (env := Demo.persisted) Demo.linked Demo.A "owner" = Ok (a, Demo.linked).
Proof.
  apply (get_existing_is_lookup (env := Demo.persisted) Demo.linked Demo.A "owner");
    [vm_compute; reflexivity | discriminate].
Defined.

Lemma get_raises_witness :
  (∃ msg, get (env := Demo.persisted) newGraph Demo.A "nosuch" = Err msg)
  ∧ (∃ msg, get (env := Demo.persisted) Demo.mismarked Demo.C "ghost" = Err msg).
Proof.
  split.
  - apply (proj1 (proj2 (get_raises (env := Demo.persisted) newGraph Demo.A)));
      [discriminate | reflexivity | reflexivity | vm_compute; reflexivity].
  - apply (proj2 (proj2 (get_raises (env := Demo.persisted) Demo.mismarked Demo.C))
             "ghost" Demo.unmarked);
      [discriminate | reflexivity | vm_compute; reflexivity | reflexivity | reflexivity].
Defined.

Lemma unload_mutates_in_place_witness :
  length (heap Demo.unloaded) = length (heap Demo.linked)
  ∧ sameBookkeeping Demo.linked Demo.unloaded
  ∧ identifiers Demo.unloaded !! Demo.A = identifiers Demo.linked !! Demo.A.
Proof.
  destruct (unload_mutates_in_place (env := Demo.persisted) Demo.linked Demo.unloaded
              Demo.X false) as (Hlen & _ & Hbook & _ & Hothers & _);
    [vm_compute; reflexivity|].
  split; [exact Hlen|]. split; [exact Hbook|]. apply Hothers. discriminate.
Defined.

Lemma unload_drops_implicit_edges_witness :
  registered Demo.unmixed Demo.C "implicit-post:comments" = None
  ∧ registered Demo.unmixed Demo.C "author" = Some 1.
Proof.
  pose proof (unload_drops_implicit_edges (env := Demo.persisted) Demo.mixed Demo.unmixed
                Demo.C false) as Hreg.
  split; rewrite Hreg by (vm_compute; reflexivity); reflexivity.
Defined.

Lemma remove_effect_witness :
  sameBookkeeping Demo.linked Demo.unlinked
  ∧ isReleasable (env := Demo.persisted) Demo.unlinked Demo.X = true.
Proof.
  destruct (remove_effect (env := Demo.persisted) Demo.linked Demo.unlinked Demo.X)
    as (_ & _ & Hbook & _ & _ & Hrel); [vm_compute; reflexivity|].
  split; [exact Hbook | exact Hrel].
Defined.

Lemma remove_unregistered_witness :
  remove (env := Demo.persisted) Demo.linked Demo.C = Ok Demo.linked.
Proof.
  apply (remove_unregistered (env := Demo.persisted) Demo.linked Demo.C); reflexivity.
Defined.

Lemma update_deleteRecord_effect_witness :
  identifiers Demo.deleted !! Demo.X = None
  ∧ identifiers Demo.deleted !! Demo.A = identifiers Demo.linked !! Demo.A
  ∧ update (env := Demo.persisted) Demo.linked Demo.deleteComment true = Ok Demo.linked.
Proof.
  destruct (update_deleteRecord_effect (env := Demo.persisted) Demo.linked Demo.deleteUser)
    as [_ Hdel]; [reflexivity|].
  destruct (Hdel Demo.deleted) as (Hgone & Hothers & _); [vm_compute; reflexivity|].
  split; [exact Hgone|]. split; [apply Hothers; discriminate|].
  apply (proj1 (update_deleteRecord_effect (env := Demo.persisted) Demo.linked
                  Demo.deleteComment eq_refl)).
  reflexivity.
Defined.

Lemma update_rejects_wrong_mode_witness :
  (∃ msg, update (env := Demo.persisted) Demo.linked Demo.deleteUser false = Err msg)
  ∧ (∃ msg, update (env := Demo.persisted) Demo.linked
              (mkOp op_addToRelatedRecords Demo.X "owned" [Demo.A]) true = Err msg).
Proof.
  split.
  - apply (proj1 (update_rejects_wrong_mode (env := Demo.persisted) Demo.linked
                    Demo.deleteUser)). by right.
  - apply (proj1 (proj2 (update_rejects_wrong_mode (env := Demo.persisted) Demo.linked
                           (mkOp op_addToRelatedRecords Demo.X "owned" [Demo.A])))).
    by left.
Defined.

Lemma update_rejects_implicit_edge_witness :
  ∃ msg, update (env := Demo.persisted) Demo.orphan
           (mkOp op_replaceRelatedRecords Demo.C "implicit-post:comments" [Demo.A]) false
         = Err msg.
Proof.
  apply (update_rejects_implicit_edge (env := Demo.persisted) Demo.orphan
           (mkOp op_replaceRelatedRecords Demo.C "implicit-post:comments" [Demo.A])
           0 (ImplicitEdge.mk Demo.comment_post Demo.C [] []) false);
    first [discriminate | reflexivity].
Defined.

Lemma notifyInverseOfDematerialization_cases_witness :
  notifyInverseOfDematerialization (env := Demo.persisted) newGraph Demo.A "owner" Demo.X false
  = Ok newGraph
  ∧ notifyInverseOfDematerialization (env := Demo.persisted) Demo.linked Demo.A "owner"
      Demo.C false = Ok Demo.linked
  ∧ (∃ msg, notifyInverseOfDematerialization (env := Demo.persisted) Demo.orphan Demo.C
              "implicit-post:comments" Demo.A false = Err msg)
  ∧ notifyInverseOfDematerialization (env := Demo.persisted) Demo.linked Demo.A "editor"
      Demo.X false
    = Ok (removeDematerializedInverse (env := Demo.persisted) Demo.linked 0 Demo.X false).
Proof.
  split; [|split; [|split]].
  - apply (proj1 (notifyInverseOfDematerialization_cases (env := Demo.persisted)
                    newGraph Demo.A Demo.X "owner" false)). reflexivity.
  - apply (proj1 (proj2 (notifyInverseOfDematerialization_cases (env := Demo.persisted)
                           Demo.linked Demo.A Demo.C "owner" false))
             1 (ResourceEdge.mk Demo.post_owner Demo.A 0
                  (Some Demo.X) (Some Demo.X) Demo.loaded) Demo.X);
      first [discriminate | reflexivity].
  - apply (proj1 (proj2 (proj2 (notifyInverseOfDematerialization_cases
                                  (env := Demo.persisted) Demo.orphan Demo.C Demo.A
                                  "implicit-post:comments" false)))
             0 (ImplicitEdge.mk Demo.comment_post Demo.C [] [])); reflexivity.
  - apply (proj2 (proj2 (proj2 (notifyInverseOfDematerialization_cases
                                  (env := Demo.persisted) Demo.linked Demo.A Demo.X
                                  "editor" false)))
             0 (Resource (ResourceEdge.mk Demo.post_editor Demo.A 0
                            (Some Demo.X) (Some Demo.X) Demo.loaded)));
      try first [discriminate | reflexivity].
    intros r [= <-]. by right.
Defined.


Lemma removeCompletelyFromInverse_own_edge_witness :
  ∃ rel', heap Demo.disconnected !! 1 = Some rel'
          ∧ sameShape (Resource (ResourceEdge.mk Demo.post_owner Demo.A 0
                                   (Some Demo.X) (Some Demo.X) Demo.loaded)) rel'.
Proof.
  destruct (removeCompletelyFromInverse_own_edge (env := Demo.persisted)
              Demo.linked Demo.disconnected 1
              (Resource (ResourceEdge.mk Demo.post_owner Demo.A 0
                           (Some Demo.X) (Some Demo.X) Demo.loaded)))
    as (rel' & Hrel & Hshape & _); [reflexivity | vm_compute; reflexivity |].
  exists rel'. split; [exact Hrel | exact Hshape].
Defined.

Lemma unload_keeps_edges_with_implicit_inverse_witness :
  unload (env := Demo.persisted) Demo.commented Demo.A false = Ok Demo.commented.
Proof.
  apply (unload_keeps_edges_with_implicit_inverse (env := Demo.persisted)).
  intros k a Hreg.
  assert (identifiers Demo.commented !! Demo.A = Some [("comments", Some 0)]) as Hnode
    by (vm_compute; reflexivity).
  unfold registered in Hreg. rewrite Hnode in Hreg. simpl in Hreg.
  destruct (decide ("comments" = k)); [|discriminate]. injection Hreg as <-.
  eexists. split; [reflexivity|]. split; reflexivity.
Defined.

Lemma isReleasable_of_others_unchanged_witness :
  isReleasable (env := Demo.persisted) Demo.unloaded Demo.A
  = isReleasable (env := Demo.persisted) Demo.linked Demo.A.
Proof.
  apply (proj1 (isReleasable_of_others_unchanged (env := Demo.persisted)
                  Demo.linked Demo.unloaded Demo.X Demo.A ltac:(discriminate)) false).
  vm_compute. reflexivity.
Defined.

Lemma scheduleLocalSync_coalesces_witness :
  requests Demo.scheduled "sync" = requests Demo.linked "sync" + 1
  ∧ NoDup (_updatedRelationships Demo.scheduled).
Proof.
  destruct (scheduleLocalSync_coalesces (env := Demo.persisted) Demo.linked Demo.scheduled
              [2; 3; 2]) as (Hreq & Hnd & _);
    [reflexivity | reflexivity | discriminate | vm_compute; reflexivity |].
  split; [exact Hreq | exact Hnd].
Defined.

Lemma finalize_touches_counters_only_witness :
  transactionRefAt (_finalize Demo.touched) 1 = transactionRefAt Demo.touched 1
  ∧ identifiers (_finalize Demo.touched) = identifiers Demo.touched.
Proof.
  destruct (finalize_touches_counters_only Demo.touched) as (Hids & _ & _ & _ & _ & Hout & _).
  split; [|exact Hids]. apply (Hout [0]); [reflexivity|].
  intros Hin. apply list_elem_of_singleton in Hin. discriminate.
Defined.

Lemma getDefinition_null_not_cached_witness :
  cachedMeta Demo.unresolved "comment" "post" = None
  ∧ resolutions Demo.unresolved "comment" "post" = 1.
Proof.
  destruct (getDefinition_null_not_cached (env := Demo.lopsided) newGraph Demo.unresolved
              Demo.C "post") as (Hcache & Hcount & _); [vm_compute; reflexivity|].
  split; [exact Hcache | exact Hcount].
Defined.

Lemma push_and_definitions_witness :
  _metaCache Demo.afterDeletePush = _metaCache Demo.linked
  ∧ (∃ msg, push (env := Demo.persisted) Demo.implicitCached
              (mkOp op_updateRelationship Demo.C "implicit-post:comments" [Demo.A])
            = Err msg).
Proof.
  split.
  - destruct (proj1 (push_and_definitions (env := Demo.persisted) Demo.linked
                       Demo.deleteComment) (or_introl eq_refl) Demo.afterDeletePush)
      as (Hmeta & _); [vm_compute; reflexivity | exact Hmeta].
  - apply (proj2 (push_and_definitions (env := Demo.persisted) Demo.implicitCached
                    (mkOp op_updateRelationship Demo.C "implicit-post:comments" [Demo.A]))
             ltac:(discriminate) ltac:(discriminate) Demo.comment_post);
      [vm_compute; reflexivity | reflexivity].
Defined.

Lemma registerPolymorphicType_symmetric_witness :
  polymorphicWith (registerPolymorphicType newGraph "post" "comment") "comment" "post"
  = Some true
  ∧ polymorphicWith (registerPolymorphicType newGraph "post" "comment") "user" "post"
    = polymorphicWith newGraph "user" "post".
Proof.
  destruct (registerPolymorphicType_symmetric newGraph "post" "comment")
    as (_ & Hback & Hother & _).
  split; [exact Hback|]. apply Hother; intros [? ?]; discriminate.
Defined.

Lemma flushRemoteQueue_raises_on_local_operation_witness :
  push (env := Demo.persisted) Demo.linked Demo.addOwned = Ok Demo.misqueued
  ∧ ∃ msg, _flushRemoteQueue (env := Demo.persisted) Demo.misqueued = Err msg.
Proof.
  split; [vm_compute; reflexivity|].
  apply (flushRemoteQueue_raises_on_local_operation (env := Demo.persisted)
           Demo.misqueued Demo.addOwned);
    [reflexivity | vm_compute; apply list_elem_of_here | by left].
Defined.

Lemma isReleasable_after_unload_witness :
  isReleasable (env := Demo.persisted) Demo.unmixed Demo.C = false.
Proof.
  apply (isReleasable_after_unload (env := Demo.persisted) Demo.mixed Demo.unmixed Demo.C false);
    [vm_compute; reflexivity|].
  split; [|reflexivity].
  exists (Resource (ResourceEdge.mk Demo.comment_author Demo.C 0
                      (Some Demo.X) (Some Demo.X) Demo.loaded)).
  split; [vm_compute; apply list_elem_of_further, list_elem_of_here|].
  split; reflexivity.
Defined.
